(** * MyGitPuller ([pull.py]): a shallow embedding and its properties

    The program finds Git repositories beneath the directory of the script,
    keeps their paths in a JSON cache beside it, and runs [git pull] followed
    by [git submodule update --init --recursive] in each of them on a thread
    pool, printing one report per repository.

    Conventions of the embedding.
    - A Python [str] is the list of its code points ([pystr]); literals of
      the source are written with [lit].
    - A [Path] is the list of its components below the filesystem root; the
      filesystem is a tree of directories and files, every directory readable,
      no symbolic links. Where a statement is about an [os.stat] that is
      refused, the paths concerned are given beside the tree ([stat_errors]).
    - The external world enters through explicit arguments: what
      [subprocess.run] does for a call, what a write of the cache file does,
      the order in which the pool completes its tasks.
    - Effects are explicit: the commands handed to [subprocess.run] are
      collected in a trace, the lines printed and the writes of the cache in
      an event log that the state carries. *)

From Stdlib Require Import ZArith NArith Ascii String Lia.
From stdpp Require Import base list strings pretty sorting gmap lexico.

Local Open Scope Z_scope.

(** ** Python strings *)

Abbreviation pystr := (list N).

(** A literal of the source; every literal so written is ASCII. *)
Definition lit (s : string) : pystr :=
  (λ a, N_of_ascii a) <$> list_ascii_of_string s.
Arguments lit : simpl never.

(** [len(l)] *)
Definition len {A} (l : list A) : Z := Z.of_nat (length l).

Module Str.

(** [str.isspace] on one code point: the code points CPython's
    [_PyUnicode_IsWhitespace] accepts. *)
Definition isspace (c : N) : bool :=
  ((9 <=? c) && (c <=? 13) || (28 <=? c) && (c <=? 32)
   || (c =? 133) || (c =? 160) || (c =? 5760)
   || (8192 <=? c) && (c <=? 8202)
   || (c =? 8232) || (c =? 8233) || (c =? 8239) || (c =? 8287)
   || (c =? 12288))%N.

Fixpoint lstrip (s : pystr) : pystr :=
  match s with
  | [] => []
  | c :: s' => if isspace c then lstrip s' else s
  end.

Definition rstrip (s : pystr) : pystr := reverse (lstrip (reverse s)).

(** [s.strip()] *)
Definition strip (s : pystr) : pystr := rstrip (lstrip s).

Fixpoint startswith (s p : pystr) {struct p} : bool :=
  match p, s with
  | [], _ => true
  | _ :: _, [] => false
  | a :: p', b :: s' => (a =? b)%N && startswith s' p'
  end.

(** [needle in hay] *)
Fixpoint contains (needle hay : pystr) : bool :=
  startswith hay needle ||
  match hay with
  | [] => false
  | _ :: hay' => contains needle hay'
  end.

(** [sep.join(parts)] *)
Fixpoint join (sep : pystr) (parts : list pystr) : pystr :=
  match parts with
  | [] => []
  | [p] => p
  | p :: ps => p ++ sep ++ join sep ps
  end.

(** [str(n)] for an [int]. *)
Definition of_int (n : Z) : pystr := lit (pretty n).

(** [repr(s)] for a string without quotes, backslashes or unprintable
    characters, which is what the program's command words are. *)
Definition repr_plain (s : pystr) : pystr := lit "'" ++ s ++ lit "'".

(** [repr(l)] for a list of such strings. *)
Definition repr_list (l : list pystr) : pystr :=
  lit "[" ++ join (lit ", ") (repr_plain <$> l) ++ lit "]".

End Str.

(** The strings made of whitespace only. *)
Definition all_space (s : pystr) : Prop := Forall (λ c, Str.isspace c = true) s.

(** ** Filesystem *)

Abbreviation path := (list pystr).

#[warnings="-register-all"]
Inductive node : Type :=
  | File
  | Dir (entries : list (pystr * node)).

Module Fs.

Fixpoint find_entry (name : pystr) (es : list (pystr * node)) : option node :=
  match es with
  | [] => None
  | (n, x) :: es' => if decide (n = name) then Some x else find_entry name es'
  end.

(** The node a path denotes, if any. *)
Fixpoint resolve (fs : node) (p : path) : option node :=
  match p with
  | [] => Some fs
  | name :: p' =>
      match fs with
      | File => None
      | Dir es =>
          match find_entry name es with
          | Some x => resolve x p'
          | None => None
          end
      end
  end.

(** [p.is_dir()], for a path whose [os.stat] answers or fails with one of
    the errors [Path.is_dir] turns into [False] (ENOENT, ENOTDIR, EBADF,
    ELOOP). Every other [OSError] of [os.stat] (EACCES, ENAMETOOLONG, ...) is
    raised again by [Path.is_dir]; that case is [path_is_dir] below. *)
Definition is_dir (fs : node) (p : path) : bool :=
  match resolve fs p with
  | Some (Dir _) => true
  | _ => false
  end.

(** [p / name] *)
Definition child (p : path) (name : pystr) : path := p ++ [name].

(** [p.name] *)
Definition name (p : path) : pystr := default [] (last p).

(** [str(p)] for an absolute path. *)
Definition render (p : path) : pystr := lit "/" ++ Str.join (lit "/") p.

(** [str(p)] for a relative path; the empty one prints as a dot. *)
Definition render_rel (p : path) : pystr :=
  match p with
  | [] => lit "."
  | _ => Str.join (lit "/") p
  end.

End Fs.

Definition dot_git : pystr := lit ".git".

(** The test the program applies to a cached path:
    [repo_path.is_dir() and (repo_path / ".git").is_dir()]. *)
Definition is_repo (fs : node) (p : path) : bool :=
  Fs.is_dir fs p && Fs.is_dir fs (Fs.child p dot_git).

(** ** Update executor: [run_git_commands] *)

Inductive status : Type :=
  | NotARepo | Failed | UpToDate | Success | Timeout | Error.

#[global] Instance status_eq_dec : EqDecision status.
Proof. solve_decision. Defined.

(** The string the source uses for each status. *)
Definition status_label (s : status) : pystr :=
  match s with
  | NotARepo => lit "Not a Git repository"
  | Failed => lit "Failed"
  | UpToDate => lit "Up-to-date"
  | Success => lit "Success"
  | Timeout => lit "Timeout"
  | Error => lit "Error"
  end.

Definition update_result : Type := path * status * pystr.

(** The keyword arguments that lower the priority of the child. *)
Inductive priority_kwargs : Type :=
  | NoKwargs
  | CreationFlagsBelowNormal
  | PreexecNice10.

Definition priority_for (platform : pystr) : priority_kwargs :=
  if decide (platform = lit "win32") then CreationFlagsBelowNormal
  else if decide (platform ∈ [lit "linux"; lit "darwin"]) then PreexecNice10
  else NoKwargs.

(** One call of [subprocess.run]. *)
Record call : Type := Call {
  argv : list pystr;
  cwd : path;
  call_timeout : Z;
  kwargs : priority_kwargs
}.

(** What the world does with such a call: the command runs to completion, it
    is still running when the timeout expires, or the call fails in some other
    way (the executable is missing, the pipe breaks, ...), the string being
    [str] of the exception. *)
Inductive proc_outcome : Type :=
  | Completed (returncode : Z) (stdout stderr : pystr)
  | TimedOut
  | Raised (e : pystr).

Definition runner : Type := call → proc_outcome.

Record CompletedProcess : Type := Proc {
  returncode : Z;
  stdout : pystr;
  stderr : pystr
}.

(** The exceptions of the [try] block; both are subclasses of [Exception]. *)
Inductive exn : Type :=
  | TimeoutExpired (cmd : list pystr) (timeout : Z)
  | OtherException (e : pystr).

(** [str(e)] *)
Definition exn_str (e : exn) : pystr :=
  match e with
  | TimeoutExpired cmd timeout =>
      lit "Command '" ++ Str.repr_list cmd ++ lit "' timed out after "
      ++ Str.of_int timeout ++ lit " seconds"
  | OtherException s => s
  end.

(** Computations that may raise and that record the calls they make. *)
Definition Try (A : Type) : Type := (exn + A) * list call.

#[global] Instance Try_ret : MRet Try := λ A a, (inr a, []).

#[global] Instance Try_bind : MBind Try := λ A B f m,
  match m with
  | (inl e, t) => (inl e, t)
  | (inr a, t) => let '(r, t') := f a in (r, t ++ t')
  end.

(** [subprocess.run(argv, cwd=..., capture_output=True, text=True,
    timeout=..., check=False, **kwargs)] *)
Definition subprocess_run (run : runner) (c : call) : Try CompletedProcess :=
  (match run c with
   | Completed rc out err => inr (Proc rc out err)
   | TimedOut => inl (TimeoutExpired (argv c) (call_timeout c))
   | Raised e => inl (OtherException e)
   end, [c]).

Definition git_pull : list pystr := [lit "git"; lit "pull"].
Definition git_submodule_update : list pystr :=
  [lit "git"; lit "submodule"; lit "update"; lit "--init"; lit "--recursive"].

Definition up_to_date_marker : pystr := lit "Already up to date.".

Definition combined_output (pull_output submodule_output : pystr) : pystr :=
  (lit "--- git pull ---" ++ [10%N] ++ Str.strip pull_output)
  ++ (match Str.strip submodule_output with
      | [] => []
      | _ :: _ =>
          [10%N] ++ lit "--- submodules ---" ++ [10%N]
          ++ Str.strip submodule_output
      end).

(** The body of the [try] statement. *)
Definition try_body (run : runner) (kw : priority_kwargs)
    (repo_path : path) (timeout : Z) : Try update_result :=
  pull_proc ← subprocess_run run (Call git_pull repo_path timeout kw);
  let pull_output := stdout pull_proc ++ stderr pull_proc in
  submodule_proc ←
    subprocess_run run (Call git_submodule_update repo_path timeout kw);
  let submodule_output := stdout submodule_proc ++ stderr submodule_proc in
  let is_pull_ok := bool_decide (returncode pull_proc = 0) in
  let is_submodule_ok := bool_decide (returncode submodule_proc = 0) in
  let combined := combined_output pull_output submodule_output in
  if negb is_pull_ok || negb is_submodule_ok then
    mret (repo_path, Failed, combined)
  else
    let is_pull_uptodate := Str.contains up_to_date_marker pull_output in
    let is_submodule_unchanged :=
      match Str.strip submodule_output with [] => true | _ => false end in
    if is_pull_uptodate && is_submodule_unchanged then
      mret (repo_path, UpToDate, [])
    else
      mret (repo_path, Success, combined).

(** The two [except] clauses. *)
Definition handlers (repo_path : path) (m : Try update_result) : Try update_result :=
  match m with
  | (inl (TimeoutExpired cmd t as e), tr) =>
      (inr (repo_path, Timeout, lit "Command timed out: " ++ exn_str e), tr)
  | (inl (OtherException _ as e), tr) =>
      (inr (repo_path, Error, lit "An unexpected error occurred: " ++ exn_str e), tr)
  | (inr r, tr) => (inr r, tr)
  end.

Definition run_git_commands (fs : node) (platform : pystr) (run : runner)
    (repo_path : path) (timeout : Z) : Try update_result :=
  if negb (Fs.is_dir fs (Fs.child repo_path dot_git)) then
    mret (repo_path, NotARepo, [])
  else
    let kw := priority_for platform in
    handlers repo_path (try_body run kw repo_path timeout).

(** ** Main-thread effects: the cache file and what is printed *)

(** The cache file: absent; present but unreadable, [open] or [json.load]
    raising with message [e]; or a JSON array of path strings, each
    identified with the path it denotes ([Path(str(p)) = p]).

    [BadCache] stands for the failures the load catches at line 99 only:
    [json.JSONDecodeError] and [IOError]. A file whose read raises another
    exception ([UnicodeDecodeError] for bytes that are not text in the
    encoding of the locale), or that holds a JSON value other than an array
    of strings ([null], a number, an array with a number in it, on which
    [len] or [Path] raise [TypeError]), is none of these states: the load
    lets those exceptions through to its caller, and the statements below
    say nothing about them. *)
Inductive cache_state : Type :=
  | NoCache
  | BadCache (e : pystr)
  | Cache (entries : list path).

(** What the world does with one [open("w")] and [json.dump] of the cache
    file: it succeeds; [open] raises [IOError] and the file is untouched; or
    the file is opened, hence truncated, and the dump raises [IOError], after
    which the file holds no complete JSON value and reading it raises with
    message [later]. *)
Inductive write_outcome : Type :=
  | WriteOk
  | OpenFails (e : pystr)
  | DumpFails (e later : pystr).

Inductive event : Type :=
  | Print (line : pystr)
  | WriteCache (entries : list path) (w : write_outcome)
  | Spawn (c : call).

Record st : Type := St {
  cache : cache_state;
  log : list event
}.

Definition IO (A : Type) : Type := st → A * st.

#[global] Instance IO_ret : MRet IO := λ A a σ, (a, σ).

#[global] Instance IO_bind : MBind IO := λ A B f m σ,
  let '(a, σ') := m σ in f a σ'.

Definition emit (e : event) : IO unit :=
  λ σ, (tt, St (cache σ) (log σ ++ [e])).

Definition print (s : pystr) : IO unit := emit (Print s).

Definition emit_calls (calls : list call) : IO unit :=
  λ σ, (tt, St (cache σ) (log σ ++ (Spawn <$> calls))).

(** [cache_file.is_file()] *)
Definition cache_is_file : IO bool :=
  λ σ, (match cache σ with NoCache => false | _ => true end, σ).

(** [with cache_file.open("r") as f: json.load(f)] on the states of
    [cache_state], with the [except] clause of line 99: [inl] carries the text
    of the [JSONDecodeError] or [IOError] that was caught. The message for the
    absent file is the one of [FileNotFoundError] on POSIX. *)
Definition read_cache (cache_file : path) : IO (pystr + list path) :=
  λ σ, (match cache σ with
        | NoCache =>
            inl (lit "[Errno 2] No such file or directory: "
                 ++ Str.repr_plain (Fs.render cache_file))
        | BadCache e => inl e
        | Cache l => inr l
        end, σ).

(** [with cache_file.open("w") as f: json.dump([str(p) for p in l], f, indent=2)];
    [Some e] when [IOError] is raised. *)
Definition write_cache (w : write_outcome) (l : list path) : IO (option pystr) :=
  λ σ,
    let lg := log σ ++ [WriteCache l w] in
    match w with
    | WriteOk => (None, St (Cache l) lg)
    | OpenFails e => (Some e, St (cache σ) lg)
    | DumpFails e later => (Some e, St (BadCache later) lg)
    end.

Definition cache_file_name : pystr := lit ".git_repo_cache.json".

(** ** Repository locator and cache: [find_and_cache_repositories] *)

Module Locator.

(** [p.iterdir()]. On a path that is no directory Python raises; the
    program calls it on the directory that holds the script, and the
    statements about the scan assume a directory. *)
Definition iterdir (fs : node) (p : path) : list path :=
  match Fs.resolve fs p with
  | Some (Dir es) => (λ e, Fs.child p e.1) <$> es
  | _ => []
  end.

(** The paths named [.git] below the node [n] that sits at [base]. *)
Fixpoint rglob_node (base : path) (n : node) {struct n} : list path :=
  match n with
  | File => []
  | Dir es =>
      (fix go (es : list (pystr * node)) : list path :=
         match es with
         | [] => []
         | (name, x) :: es' =>
             (if decide (name = dot_git) then [Fs.child base name] else [])
             ++ rglob_node (Fs.child base name) x ++ go es'
         end) es
  end.

(** [directory.rglob(".git")] *)
Definition rglob_git (fs : node) (directory : path) : list path :=
  match Fs.resolve fs directory with
  | Some n => rglob_node directory n
  | None => []
  end.

(** [git_dir.parent] *)
Definition parent (p : path) : path := removelast p.

(** [a < b] on paths: by components, each compared by code points. *)
Definition path_lt : relation path := lexico.

(** The order a stable sort that only asks [<] works with:
    [a] stays before [b] unless [b < a]. *)
Definition path_le : relation path := λ a b, ¬ path_lt b a.

#[global] Instance path_lt_dec (a b : path) : Decision (path_lt a b) :=
  match trichotomyT lexico a b with
  | inleft (left H) => left H
  | inleft (right H) =>
      right (λ H', irreflexivity lexico b (eq_ind a (λ x, lexico x b) H' b H))
  | inright H => right (λ H', irreflexivity lexico a (transitivity H' H))
  end.

#[global] Instance path_le_dec (a b : path) : Decision (path_le a b) :=
  not_dec (path_lt_dec b a).

(** [sorted(list(set(repos)))] *)
Definition sorted_set (repos : list path) : list path :=
  merge_sort path_le (elements (list_to_set repos : gset path)).

Definition scan (fs : node) (script_dir : path) : list path :=
  let directories := filter (λ p, Fs.is_dir fs p = true) (iterdir fs script_dir) in
  let repos :=
    directories ≫= λ directory,
      parent <$> filter (λ git_dir, Fs.is_dir fs git_dir = true)
                        (rglob_git fs directory) in
  sorted_set repos.

End Locator.

Definition find_and_cache_repositories (fs : node) (w : write_outcome)
    (script_dir cache_file : path) : IO (list path) :=
  print (lit "Scanning all directories to find Git repositories...");;
  let sorted_repos := Locator.scan fs script_dir in
  r ← write_cache w sorted_repos;
  match r with
  | None =>
      print (lit "Found " ++ Str.of_int (len sorted_repos)
             ++ lit " repositories. Cache file created/updated at: "
             ++ Fs.name cache_file)
  | Some e => print (lit "Error: Could not write to cache file: " ++ e)
  end;;
  mret sorted_repos.

(** ** Repository cache: [load_repositories_from_cache] *)

(** The loop over the stored paths. *)
Fixpoint check_cached (fs : node) (repo_paths : list path) (valid_repos : list path)
    : IO (list path) :=
  match repo_paths with
  | [] => mret valid_repos
  | repo_path :: rest =>
      if is_repo fs repo_path then
        check_cached fs rest (valid_repos ++ [repo_path])
      else
        print (lit "Warning: Cached path is no longer a valid git repo, removing: "
               ++ Fs.render repo_path);;
        check_cached fs rest valid_repos
  end.

Definition load_repositories_from_cache (fs : node) (w : write_outcome)
    (cache_file : path) : IO (list path) :=
  print (lit "Loading repository list from cache: " ++ Fs.name cache_file);;
  r ← read_cache cache_file;
  match r with
  | inl e =>
      print (lit "Error: Could not read cache file (" ++ e
             ++ lit "). Run with --refresh to rebuild it.");;
      mret []
  | inr repo_paths =>
      let original_count := len repo_paths in
      valid_repos ← check_cached fs repo_paths [];
      (if decide (len valid_repos ≠ original_count) then
         print (lit "Cleaning invalid paths from cache file...");;
         r ← write_cache w valid_repos;
         match r with
         | None => print (lit "Cache file has been cleaned.")
         | Some e => print (lit "Error: Could not update cache file: " ++ e)
         end
       else mret tt);;
      print (lit "Loaded " ++ Str.of_int (len valid_repos)
             ++ lit " valid repositories from cache.");;
      mret valid_repos
  end.

(** ** Command line *)

Module Cli.

Definition is_digit (c : N) : bool := ((48 <=? c) && (c <=? 57))%N.

(** Decimal digits, single underscores allowed between two digits. *)
Fixpoint digits (acc : Z) (after_digit : bool) (s : pystr) : option Z :=
  match s with
  | [] => if after_digit then Some acc else None
  | c :: s' =>
      if is_digit c then digits (10 * acc + (Z.of_N c - 48)) true s'
      else if (c =? 95)%N && after_digit then digits acc false s'
      else None
  end.

(** [int(s)] on ASCII input: surrounding whitespace, an optional sign,
    digits. [None] stands for [ValueError]. (Python also reads the decimal
    digits of other scripts; those are rejected here. It refuses literals of
    more than 4300 digits; those are read here.) *)
Definition py_int (s : pystr) : option Z :=
  match Str.strip s with
  | 43%N :: r => digits 0 false r
  | 45%N :: r => Z.opp <$> digits 0 false r
  | t => digits 0 false t
  end.

(** [positive_int_range(min_val, max_val)] is the checker; [inl] carries
    the message of the [ArgumentTypeError] it raises. The message of the
    [ValueError] of [int] quotes the word with [Str.repr_plain], which is
    [repr] for words without quotes, backslashes or unprintable characters. *)
Definition positive_int_range (min_val max_val : Z) (value_str : pystr)
    : pystr + Z :=
  match py_int value_str with
  | None =>
      inl (lit "invalid literal for int() with base 10: "
           ++ Str.repr_plain value_str)
  | Some value =>
      if negb ((min_val <=? value) && (value <=? max_val)) then
        inl (lit "Value must be between " ++ Str.of_int min_val
             ++ lit " and " ++ Str.of_int max_val ++ lit ".")
      else inr value
  end.

(** The options as they stand on the command line, after [argparse] has
    split it: the word given to [-w]/[--max-workers], if any, and whether
    [-r]/[--refresh] is present. *)
Record command_line : Type := CommandLine {
  opt_max_workers : option pystr;
  opt_refresh : bool
}.

Record args : Type := Args {
  max_workers : Z;
  refresh : bool
}.

(** [parser.parse_args()]: the checker converts the word of [-w]; the
    default is taken as it is. *)
Definition parse_args (default_workers : Z) (cl : command_line) : pystr + args :=
  match opt_max_workers cl with
  | None => inr (Args default_workers (opt_refresh cl))
  | Some value_str =>
      match positive_int_range 1 64 value_str with
      | inl msg => inl msg
      | inr v => inr (Args v (opt_refresh cl))
      end
  end.

End Cli.

(** ** Orchestrator: [main] *)

(** How the process ends: [main] returns; [sys.exit(code)]; [argparse]
    rejects the command line ([parser.error], which exits with status 2 after
    printing usage and the message on stderr); an exception reaches the top
    level. *)
Inductive termination : Type :=
  | Returned
  | SysExit (code : Z)
  | ArgparseError (msg : pystr)
  | Uncaught (e : pystr).

Definition exit_code (t : termination) : Z :=
  match t with
  | Returned => 0
  | SysExit code => code
  | ArgparseError _ => 2
  | Uncaught _ => 1
  end.

(** What [main] finds around itself. [run_task i] is what [subprocess.run]
    does for the calls of the [i]-th submitted task, [schedule] decides which
    of the pending tasks completes next. *)
Record env : Type := Env {
  fs : node;
  platform : pystr;
  cpu_count : option Z;
  script_dir : path;
  write : write_outcome;
  run_task : nat → runner;
  schedule : list nat
}.

(** [concurrent.futures.as_completed]: each pending future is yielded once,
    the [k]-th of those still pending where [k] is the next number of the
    schedule (modulo their count). *)
Fixpoint complete_order {A} (n : nat) (sched : list nat) (pending : list A) : list A :=
  match n with
  | O => []
  | S n' =>
      let k := (hd O sched `mod` length pending)%nat in
      match pending !! k with
      | Some x => x :: complete_order n' (tl sched) (delete k pending)
      | None => []
      end
  end.

Definition as_completed {A} (sched : list nat) (futures : list A) : list A :=
  complete_order (length futures) sched futures.

(** [p.relative_to(base)]; [None] stands for [ValueError]. *)
Fixpoint relative_to (p base : path) : option path :=
  match base, p with
  | [], _ => Some p
  | _ :: _, [] => None
  | b :: base', c :: p' => if decide (b = c) then relative_to p' base' else None
  end.

Definition print_separator : IO unit := print (replicate 60 45%N).

Definition icon_for (s : status) : pystr :=
  match s with
  | Success => [9989%N]
  | Timeout => [9200%N]
  | _ => [10060%N]
  end.

(** The loop over [as_completed]. [future.result()] re-raises what the task
    raised; [Some e] is that exception leaving the loop. The calls a task made
    enter the log when its result is taken. *)
Fixpoint report_loop (script_dir : path) (total completed : Z)
    (futures : list (Try update_result)) : IO (option exn) :=
  match futures with
  | [] => mret None
  | (r, calls) :: rest =>
      emit_calls calls;;
      match r with
      | inl e => mret (Some e)
      | inr (repo, status, output) =>
          let completed := completed + 1 in
          if decide (status = UpToDate) then
            report_loop script_dir total completed rest
          else
            let progress :=
              lit "[" ++ Str.of_int completed ++ lit "/" ++ Str.of_int total ++ lit "]" in
            let icon := icon_for status in
            let relative_path :=
              match relative_to repo script_dir with
              | Some rel => Fs.render_rel rel
              | None => Fs.render repo
              end in
            print (icon ++ lit " " ++ progress ++ lit " Repository: " ++ relative_path);;
            print (lit "Status: " ++ status_label status);;
            (match output with
             | [] => mret tt
             | _ :: _ => print (lit "Details:");; print output
             end);;
            print_separator;;
            report_loop script_dir total completed rest
      end
  end.

Definition or_1 (n : option Z) : Z :=
  match n with
  | Some n => if decide (n = 0) then 1 else n
  | None => 1
  end.

(** Part 2 of [main]: the repository list, from a scan or from the cache. *)
Definition prepare_repositories (E : env) (args : Cli.args) : IO (list path) :=
  let cache_file := Fs.child (script_dir E) cache_file_name in
  is_file ← cache_is_file;
  if Cli.refresh args || negb is_file then
    (if negb is_file then
       print (lit "Cache file not found. Performing initial scan...")
     else print (lit "Forcing cache refresh..."));;
    find_and_cache_repositories (fs E) (write E) (script_dir E) cache_file
  else
    load_repositories_from_cache (fs E) (write E) cache_file.

(** The futures of [executor.submit(run_git_commands, repo)], in the order
    of submission; the timeout is the default of [run_git_commands]. *)
Definition submit_all (E : env) (repos : list path) : list (Try update_result) :=
  imap (λ i repo, run_git_commands (fs E) (platform E) (run_task E i) repo 60) repos.

(** Part 3 of [main]: the updates on the pool and their reports. *)
Definition run_updates (E : env) (args : Cli.args) (repos : list path) : IO termination :=
  let total := len repos in
  if decide (total = 0) then
    print (lit "No repositories to update.");;
    mret Returned
  else
    print ([10%N] ++ lit "Starting updates for " ++ Str.of_int total
           ++ lit " repositories with up to "
           ++ Str.of_int (Cli.max_workers args)
           ++ lit " parallel workers...");;
    print_separator;;
    r ← report_loop (script_dir E) total 0
          (as_completed (schedule E) (submit_all E repos));
    match r with
    | Some e => mret (Uncaught (exn_str e))
    | None =>
        print (lit "All tasks completed.");;
        mret Returned
    end.

Definition over_capacity_warning (max_workers cpus : Z) : pystr :=
  lit "Warning: --max-workers is set to " ++ Str.of_int max_workers
  ++ lit ", which exceeds the number of available CPU cores ("
  ++ Str.of_int cpus
  ++ lit "). This may lead to suboptimal performance.".

Definition main (E : env) (cl : Cli.command_line) : IO termination :=
  let default_workers := Z.max 1 (or_1 (cpu_count E) / 2) in
  match Cli.parse_args default_workers cl with
  | inl msg => mret (ArgparseError msg)
  | inr args =>
      if decide (Cli.max_workers args < 1) then
        print (lit "Error: --max-workers must be at least 1.");;
        mret (SysExit 1)
      else
        match cpu_count E with
        | None =>
            mret (Uncaught (lit "'>' not supported between instances of 'int' and 'NoneType'"))
        | Some cpus =>
            if decide (Cli.max_workers args > cpus) then
              print (over_capacity_warning (Cli.max_workers args) cpus);;
              print (lit "Consider reducing the number of workers for better performance.");;
              mret (SysExit 1)
            else
              repos ← prepare_repositories E args;
              run_updates E args repos
        end
  end.

(** ** The test of line 13 when [os.stat] fails *)

(** The paths whose [os.stat] fails with an error that [Path.is_dir] does
    not swallow, each with the text of that error, at the time the updates
    run. *)
Definition stat_errors : Type := path → option pystr.

(** [p.is_dir()] with those errors: [inl] carries the text of the [OSError]
    it raises. *)
Definition path_is_dir (errs : stat_errors) (fs : node) (p : path) : pystr + bool :=
  match errs p with
  | Some e => inl e
  | None => inr (Fs.is_dir fs p)
  end.

(** [run_git_commands] with it. The test stands before the [try] statement:
    what it raises is caught by neither [except] clause and leaves the
    function. *)
Definition run_git_commands_stat (errs : stat_errors) (fs : node) (platform : pystr)
    (run : runner) (repo_path : path) (timeout : Z) : Try update_result :=
  match path_is_dir errs fs (Fs.child repo_path dot_git) with
  | inl e => (inl (OtherException e), [])
  | inr is_git =>
      if negb is_git then
        mret (repo_path, NotARepo, [])
      else
        let kw := priority_for platform in
        handlers repo_path (try_body run kw repo_path timeout)
  end.

Definition submit_all_stat (errs : stat_errors) (E : env) (repos : list path)
    : list (Try update_result) :=
  imap (λ i repo,
          run_git_commands_stat errs (fs E) (platform E) (run_task E i) repo 60)
       repos.

(** Part 3 of [main] with it. *)
Definition run_updates_stat (errs : stat_errors) (E : env) (args : Cli.args)
    (repos : list path) : IO termination :=
  let total := len repos in
  if decide (total = 0) then
    print (lit "No repositories to update.");;
    mret Returned
  else
    print ([10%N] ++ lit "Starting updates for " ++ Str.of_int total
           ++ lit " repositories with up to "
           ++ Str.of_int (Cli.max_workers args)
           ++ lit " parallel workers...");;
    print_separator;;
    r ← report_loop (script_dir E) total 0
          (as_completed (schedule E) (submit_all_stat errs E repos));
    match r with
    | Some e => mret (Uncaught (exn_str e))
    | None =>
        print (lit "All tasks completed.");;
        mret Returned
    end.

#[global] Instance priority_kwargs_eq_dec : EqDecision priority_kwargs.
Proof. solve_decision. Defined.

#[global] Instance call_eq_dec : EqDecision call.
Proof. solve_decision. Defined.

#[global] Instance write_outcome_eq_dec : EqDecision write_outcome.
Proof. solve_decision. Defined.

#[global] Instance event_eq_dec : EqDecision event.
Proof. solve_decision. Defined.

(** ** Names for what the statements below speak of *)

(** The two calls [run_git_commands] makes for a repository. *)
Definition pull_call (platform : pystr) (repo_path : path) (timeout : Z) : call :=
  Call git_pull repo_path timeout (priority_for platform).

Definition submodule_call (platform : pystr) (repo_path : path) (timeout : Z) : call :=
  Call git_submodule_update repo_path timeout (priority_for platform).

Definition pull_label : pystr := lit "--- git pull ---".
Definition submodules_label : pystr := lit "--- submodules ---".

(** The detail as the specification describes it for [Failed]: the stdout
    and stderr of both commands, one after the other, each block under the
    label of its command. *)
Definition labeled_concat (pull_output submodule_output : pystr) : pystr :=
  pull_label ++ [10%N] ++ pull_output
  ++ [10%N] ++ submodules_label ++ [10%N] ++ submodule_output.

(** The combined output of the pull shows the marker. *)
Definition marker_seen (pull_output : pystr) : Prop :=
  ∃ a b, pull_output = a ++ up_to_date_marker ++ b.

(** The writes of the cache file among some events. *)
Definition is_write (e : event) : bool :=
  match e with
  | WriteCache _ _ => true
  | _ => false
  end.

Definition writes (evs : list event) : list event :=
  filter (λ e, is_write e = true) evs.

(** The lines printed among some events. *)
Definition is_print (e : event) : Prop := ∃ s, e = Print s.

(** The first line of the update phase. *)
Definition start_line (total max_workers : Z) : pystr :=
  [10%N] ++ lit "Starting updates for " ++ Str.of_int total
  ++ lit " repositories with up to " ++ Str.of_int max_workers
  ++ lit " parallel workers...".

(** The worker count [main] takes when [-w] is not given. *)
Definition default_workers (cpu_count : option Z) : Z :=
  Z.max 1 (or_1 cpu_count / 2).

(** What the cache file holds after a write of [l] with outcome [w], when it
    held [old] before. *)
Definition cache_after (w : write_outcome) (l : list path) (old : cache_state)
    : cache_state :=
  match w with
  | WriteOk => Cache l
  | OpenFails _ => old
  | DumpFails _ later => BadCache later
  end.

(** The status a future holds, if it holds a result. *)
Definition status_of (f : Try update_result) : option status :=
  match f.1 with
  | inr r => Some r.1.2
  | inl _ => None
  end.

(** ** Sample worlds *)

Module Sample.

(** [/w] holds the script; [/w/a], [/w/b] and [/w/b/deep/x] are
    repositories, [/w/b/sub] has a file named [.git], [/w/f] is a file. *)
Definition tree : node :=
  Dir [(lit "w", Dir [
    (lit "b", Dir [(lit ".git", Dir []);
                   (lit "sub", Dir [(lit ".git", File)]);
                   (lit "deep", Dir [(lit "x", Dir [(lit ".git", Dir [])])])]);
    (lit "a", Dir [(lit ".git", Dir [])]);
    (lit "f", File)])].

Definition w : path := [lit "w"].
Definition repo_a : path := [lit "w"; lit "a"].
Definition repo_b : path := [lit "w"; lit "b"].
Definition gone : path := [lit "w"; lit "gone"].

Definition newline : pystr := [10%N].

(** Nothing to pull, no submodules. *)
Definition quiet : runner := λ c,
  if decide (argv c = git_pull)
  then Completed 0 (up_to_date_marker ++ newline) []
  else Completed 0 [] [].

(** The pull fails with a message on stderr, the submodule step is silent. *)
Definition pull_fails : runner := λ c,
  if decide (argv c = git_pull)
  then Completed 1 [] (lit "fatal: unable to access the remote" ++ newline)
  else Completed 0 [] [].

(** The pull does not end in time. *)
Definition pull_hangs : runner := λ c,
  if decide (argv c = git_pull) then TimedOut else Completed 0 [] [].

Definition cache_file : path := Fs.child w cache_file_name.

(** A store with an entry that is no repository any more. *)
Definition stale_store : list path := [repo_a; gone].

(** A store out of order, with a duplicate and a stale entry. *)
Definition unsorted_store : list path := [repo_b; gone; repo_a; repo_b].

(** The cache file cannot be opened for writing. *)
Definition denied : write_outcome :=
  OpenFails (lit "[Errno 13] Permission denied: '/w/.git_repo_cache.json'").

(** The cache file is opened and truncated, then the device is full. *)
Definition disk_full : write_outcome :=
  DumpFails (lit "[Errno 28] No space left on device")
            (lit "Expecting value: line 1 column 1 (char 0)").

(** A run of the pull that cannot even be launched. *)
Definition no_git : runner := λ _,
  Raised (lit "[Errno 2] No such file or directory: 'git'").

(** A machine with eight cores; the first task completes last, the pull
    fails in the task submitted second and cannot be launched in the third. *)
Definition eight_cores : env :=
  Env tree (lit "linux") (Some 8) w WriteOk
      (λ i, match i with
            | 1%nat => pull_fails
            | 2%nat => no_git
            | _ => quiet
            end)
      [1%nat; 1%nat].

(** A pull that brings changes and a submodule step that hangs. *)
Definition pull_then_hang : runner := λ c,
  if decide (argv c = git_pull)
  then Completed 0 (lit "Updating 1a2b3c4..5d6e7f8" ++ [10%N]) []
  else TimedOut.

(** A pull that brings changes, no submodules. *)
Definition pull_updates : runner := λ c,
  if decide (argv c = git_pull)
  then Completed 0 (lit "Updating 1a2b3c4..5d6e7f8" ++ [10%N] ++ lit "Fast-forward" ++ [10%N]) []
  else Completed 0 [] [].

(** A machine with 256 cores and nothing in the tree of the script. *)
Definition many_cores : env :=
  Env (Dir [(lit "w", Dir [])]) (lit "linux") (Some 256) w WriteOk (λ _, quiet) [].

(** A machine on which the number of cores cannot be determined. *)
Definition unknown_cores : env :=
  Env tree (lit "linux") None w WriteOk (λ _, quiet) [].


(** The machine with eight cores, every repository up to date. *)
Definition all_quiet : env :=
  Env tree (lit "linux") (Some 8) w WriteOk (λ _, quiet) [].

(** [/w/a] has lost its search permission since the repository list was
    made: the [stat] of [/w/a/.git] is refused. *)
Definition no_access : stat_errors := λ p,
  if decide (p = Fs.child repo_a dot_git)
  then Some (lit "[Errno 13] Permission denied: '/w/a/.git'")
  else None.

(** A store out of order and with a duplicate, both owed to a stale entry. *)
Definition stale_disorder : list path := [gone; repo_a; gone].

End Sample.

(** * Properties *)

(** ** Strings *)

Section str_facts.
Implicit Types s t p : pystr.

Lemma lstrip_split s : ∃ a, s = a ++ Str.lstrip s ∧ all_space a.
Proof.
  induction s as [|c s [a [Hs Ha]]]; simpl.
  - exists []. split; [done | constructor].
  - destruct (Str.isspace c) eqn:Hc.
    + exists (c :: a). split; [by rewrite Hs at 1 | by constructor].
    + exists []. split; [done | constructor].
Qed.

Lemma lstrip_head s c t : Str.lstrip s = c :: t → Str.isspace c = false.
Proof.
  induction s as [|d s IH]; simpl; [done|].
  destruct (Str.isspace d) eqn:Hd; [done|]. by intros [= -> _].
Qed.

Lemma lstrip_nil s : Str.lstrip s = [] ↔ all_space s.
Proof.
  split.
  - intros H. destruct (lstrip_split s) as [a [Hs Ha]].
    rewrite H, app_nil_r in Hs. by subst.
  - induction 1 as [|c s Hc _ IH]; simpl; [done | by rewrite Hc].
Qed.

Lemma rstrip_split t : ∃ b, t = Str.rstrip t ++ b ∧ all_space b.
Proof.
  destruct (lstrip_split (reverse t)) as [a [Ht Ha]].
  exists (reverse a). split.
  - unfold Str.rstrip. rewrite <-reverse_app, <-Ht. by rewrite reverse_involutive.
  - by apply Forall_reverse.
Qed.

Lemma rstrip_nil t : Str.rstrip t = [] ↔ all_space t.
Proof.
  unfold Str.rstrip, all_space. rewrite <-(Forall_reverse _ t).
  fold (all_space (reverse t)). rewrite <-lstrip_nil.
  split; intros H.
  - apply (f_equal reverse) in H. by rewrite reverse_involutive in H.
  - by rewrite H.
Qed.

(** [strip] removes a run of whitespace at each end and nothing else. *)
Lemma strip_split s :
  ∃ a b, s = a ++ Str.strip s ++ b ∧ all_space a ∧ all_space b.
Proof.
  destruct (lstrip_split s) as [a [Hs Ha]].
  destruct (rstrip_split (Str.lstrip s)) as [b [Ht Hb]].
  exists a, b. split; [|done]. unfold Str.strip. by rewrite <-Ht.
Qed.

(** The stripped string is empty exactly when the string is all whitespace. *)
Lemma strip_nil s : Str.strip s = [] ↔ all_space s.
Proof.
  unfold Str.strip. rewrite rstrip_nil. split.
  - intros H. apply lstrip_nil.
    destruct (Str.lstrip s) as [|c t] eqn:E; [done|].
    apply lstrip_head in E. inversion H; congruence.
  - intros H. apply lstrip_nil in H. rewrite H. constructor.
Qed.

Lemma startswith_spec s p : Str.startswith s p = true ↔ ∃ r, s = p ++ r.
Proof.
  revert s. induction p as [|a p IH]; intros s; simpl.
  - split; [by exists s | done].
  - destruct s as [|b s].
    + split; [done | by intros [r ?]].
    + rewrite andb_true_iff, N.eqb_eq, IH. split.
      * intros [-> [r ->]]. by exists r.
      * intros [r [= -> ->]]. split; [done | by exists r].
Qed.

(** [needle in hay] holds exactly when [needle] occurs in [hay]. *)
Lemma contains_spec p s :
  Str.contains p s = true ↔ ∃ a b, s = a ++ p ++ b.
Proof.
  induction s as [|c s IH]; simpl.
  - rewrite orb_false_r, startswith_spec. split.
    + intros [r Hr]. by exists [], r.
    + intros [a [b H]]. symmetry in H.
      apply app_eq_nil in H as [-> H]. apply app_eq_nil in H as [-> ->].
      by exists [].
  - rewrite orb_true_iff, startswith_spec, IH. split.
    + intros [[r Hr] | [a [b ->]]]; [by exists [], r | by exists (c :: a), b].
    + intros [[|d a] [b H]]; [left; by exists b|].
      right. injection H as -> ->. by exists a, b.
Qed.

End str_facts.

(** ** Update executor *)

Section update_facts.
Context (fs : node) (platform : pystr) (run : runner).
Context (repo_path : path) (timeout : Z).

Local Ltac run_steps :=
  unfold run_git_commands, try_body, handlers, subprocess_run,
    pull_call, submodule_call in *;
  unfold mbind, mret, Try_bind, Try_ret; simpl.

Lemma run_git_commands_not_repo :
  Fs.is_dir fs (Fs.child repo_path dot_git) = false →
  run_git_commands fs platform run repo_path timeout
  = (inr (repo_path, NotARepo, []), []).
Proof. intros H. run_steps. by rewrite H. Qed.

Lemma run_git_commands_pull_raises e :
  Fs.is_dir fs (Fs.child repo_path dot_git) = true →
  run (pull_call platform repo_path timeout) = Raised e →
  run_git_commands fs platform run repo_path timeout
  = (inr (repo_path, Error, lit "An unexpected error occurred: " ++ e),
     [pull_call platform repo_path timeout]).
Proof. intros H H1. run_steps. by rewrite H, H1. Qed.

Lemma run_git_commands_pull_times_out :
  Fs.is_dir fs (Fs.child repo_path dot_git) = true →
  run (pull_call platform repo_path timeout) = TimedOut →
  run_git_commands fs platform run repo_path timeout
  = (inr (repo_path, Timeout,
          lit "Command timed out: " ++ exn_str (TimeoutExpired git_pull timeout)),
     [pull_call platform repo_path timeout]).
Proof. intros H H1. run_steps. by rewrite H, H1. Qed.

Lemma run_git_commands_submodule_raises rc out err e :
  Fs.is_dir fs (Fs.child repo_path dot_git) = true →
  run (pull_call platform repo_path timeout) = Completed rc out err →
  run (submodule_call platform repo_path timeout) = Raised e →
  run_git_commands fs platform run repo_path timeout
  = (inr (repo_path, Error, lit "An unexpected error occurred: " ++ e),
     [pull_call platform repo_path timeout;
      submodule_call platform repo_path timeout]).
Proof. intros H H1 H2. run_steps. by rewrite H, H1, H2. Qed.

Lemma run_git_commands_submodule_times_out rc out err :
  Fs.is_dir fs (Fs.child repo_path dot_git) = true →
  run (pull_call platform repo_path timeout) = Completed rc out err →
  run (submodule_call platform repo_path timeout) = TimedOut →
  run_git_commands fs platform run repo_path timeout
  = (inr (repo_path, Timeout,
          lit "Command timed out: "
          ++ exn_str (TimeoutExpired git_submodule_update timeout)),
     [pull_call platform repo_path timeout;
      submodule_call platform repo_path timeout]).
Proof. intros H H1 H2. run_steps. by rewrite H, H1, H2. Qed.

Lemma run_git_commands_failed rc1 out1 err1 rc2 out2 err2 :
  Fs.is_dir fs (Fs.child repo_path dot_git) = true →
  run (pull_call platform repo_path timeout) = Completed rc1 out1 err1 →
  run (submodule_call platform repo_path timeout) = Completed rc2 out2 err2 →
  rc1 ≠ 0 ∨ rc2 ≠ 0 →
  run_git_commands fs platform run repo_path timeout
  = (inr (repo_path, Failed, combined_output (out1 ++ err1) (out2 ++ err2)),
     [pull_call platform repo_path timeout;
      submodule_call platform repo_path timeout]).
Proof.
  intros H H1 H2 Hrc. run_steps. rewrite H, H1, H2. simpl.
  destruct Hrc; repeat case_bool_decide; simpl; first [reflexivity | congruence].
Qed.

Lemma run_git_commands_zero out1 err1 out2 err2 :
  Fs.is_dir fs (Fs.child repo_path dot_git) = true →
  run (pull_call platform repo_path timeout) = Completed 0 out1 err1 →
  run (submodule_call platform repo_path timeout) = Completed 0 out2 err2 →
  run_git_commands fs platform run repo_path timeout
  = (inr (if Str.contains up_to_date_marker (out1 ++ err1)
             && bool_decide (Str.strip (out2 ++ err2) = [])
          then (repo_path, UpToDate, [])
          else (repo_path, Success,
                combined_output (out1 ++ err1) (out2 ++ err2))),
     [pull_call platform repo_path timeout;
      submodule_call platform repo_path timeout]).
Proof.
  intros H H1 H2. run_steps. rewrite H, H1, H2. simpl.
  destruct (Str.contains up_to_date_marker (out1 ++ err1)); simpl;
    destruct (Str.strip (out2 ++ err2)); simpl; reflexivity.
Qed.

End update_facts.

Section fs_facts.
Implicit Types (fs x : node) (p q : path).

Lemma resolve_app fs p q :
  Fs.resolve fs (p ++ q) = Fs.resolve fs p ≫= λ x, Fs.resolve x q.
Proof.
  revert fs. induction p as [|n p IH]; intros fs; simpl; [done|].
  destruct fs as [|es]; [done|].
  destruct (Fs.find_entry n es); [apply IH | done].
Qed.

(** What holds a directory is a directory. *)
Lemma is_dir_prefix fs p n q :
  Fs.is_dir fs (p ++ n :: q) = true → Fs.is_dir fs p = true.
Proof.
  unfold Fs.is_dir. rewrite resolve_app.
  destruct (Fs.resolve fs p) as [[|es]|]; simpl; done.
Qed.

Lemma is_repo_iff fs p :
  is_repo fs p = true ↔ Fs.is_dir fs (Fs.child p dot_git) = true.
Proof.
  unfold is_repo. rewrite andb_true_iff. split; [by intros [_ ?]|].
  intros H. split; [|done]. by apply is_dir_prefix in H.
Qed.

End fs_facts.

(** C1. When both commands exit with status zero, the result is [UpToDate]
    exactly when the stdout and stderr of the pull, taken together, contain
    the marker [Already up to date.] and those of the submodule step hold
    nothing but whitespace, and then the detail is empty; every other
    zero-exit result is [Success]. *)
Theorem C1_zero_exit_classification fs platform run repo_path timeout
    out1 err1 out2 err2 :
  Fs.is_dir fs (Fs.child repo_path dot_git) = true →
  run (pull_call platform repo_path timeout) = Completed 0 out1 err1 →
  run (submodule_call platform repo_path timeout) = Completed 0 out2 err2 →
  ∃ s detail,
    (run_git_commands fs platform run repo_path timeout).1
    = inr (repo_path, s, detail)
    ∧ (s = UpToDate ↔ marker_seen (out1 ++ err1) ∧ all_space (out2 ++ err2))
    ∧ (s = UpToDate → detail = [])
    ∧ (s ≠ UpToDate → s = Success).
Proof.
  intros Hgit H1 H2.
  rewrite (run_git_commands_zero _ _ _ _ _ _ _ _ _ Hgit H1 H2). simpl.
  pose proof (contains_spec up_to_date_marker (out1 ++ err1)) as Hc.
  pose proof (strip_nil (out2 ++ err2)) as Hs.
  fold (marker_seen (out1 ++ err1)) in Hc.
  destruct (Str.contains up_to_date_marker (out1 ++ err1)); simpl.
  - case_bool_decide as Hd; eexists _, _; (split; [reflexivity|]).
    + repeat split; try done; [by apply Hc | by apply Hs].
    + repeat split; try done. intros [_ ?]. exfalso. by apply Hd, Hs.
  - eexists _, _; split; [reflexivity|]. repeat split; try done.
    intros [? _]. exfalso. by apply Hc in H.
Qed.

Lemma C1_zero_exit_classification_witness :
  ∃ s detail,
    (run_git_commands Sample.tree (lit "linux") Sample.quiet Sample.repo_a 60).1
    = inr (Sample.repo_a, s, detail)
    ∧ (s = UpToDate ↔
       marker_seen ((up_to_date_marker ++ Sample.newline) ++ []) ∧ all_space ([] ++ []))
    ∧ (s = UpToDate → detail = [])
    ∧ (s ≠ UpToDate → s = Success).
Proof.
  apply (C1_zero_exit_classification Sample.tree (lit "linux") Sample.quiet
           Sample.repo_a 60); reflexivity.
Defined.

(** C2. When the pull exceeds the timeout, the result is [Timeout], the
    detail names the command that timed out, [['git', 'pull']], and
    [subprocess.run] was called for the pull only: the submodule step is never
    started. *)
Theorem C2_pull_timeout_stops_update fs platform run repo_path timeout :
  Fs.is_dir fs (Fs.child repo_path dot_git) = true →
  run (pull_call platform repo_path timeout) = TimedOut →
  ∃ calls,
    run_git_commands fs platform run repo_path timeout
    = (inr (repo_path, Timeout,
            lit "Command timed out: Command '['git', 'pull']' timed out after "
            ++ Str.of_int timeout ++ lit " seconds"),
       calls)
    ∧ calls = [pull_call platform repo_path timeout]
    ∧ Forall (λ c, argv c ≠ git_submodule_update) calls.
Proof.
  intros Hgit H1. eexists. split; [|split; [reflexivity|]].
  - by rewrite (run_git_commands_pull_times_out _ _ _ _ _ Hgit H1).
  - by repeat constructor.
Qed.

Lemma C2_pull_timeout_stops_update_witness :
  ∃ calls,
    run_git_commands Sample.tree (lit "linux") Sample.pull_hangs Sample.repo_a 60
    = (inr (Sample.repo_a, Timeout,
            lit "Command timed out: Command '['git', 'pull']' timed out after "
            ++ Str.of_int 60 ++ lit " seconds"),
       calls)
    ∧ calls = [pull_call (lit "linux") Sample.repo_a 60]
    ∧ Forall (λ c, argv c ≠ git_submodule_update) calls.
Proof.
  apply (C2_pull_timeout_stops_update Sample.tree (lit "linux") Sample.pull_hangs
           Sample.repo_a 60); reflexivity.
Defined.

(** C5. For a path that is not a directory holding a [.git] directory, the
    result is the path with [NotARepo] and an empty detail, and
    [subprocess.run] is not called at all. *)
Theorem C5_not_a_repo_no_spawn fs platform run repo_path timeout :
  is_repo fs repo_path = false →
  run_git_commands fs platform run repo_path timeout
  = (inr (repo_path, NotARepo, []), []).
Proof.
  intros H. apply run_git_commands_not_repo.
  destruct (Fs.is_dir fs (Fs.child repo_path dot_git)) eqn:E; [|done].
  apply is_repo_iff in E. congruence.
Qed.

Lemma C5_not_a_repo_no_spawn_witness :
  is_repo Sample.tree Sample.gone = false
  ∧ run_git_commands Sample.tree (lit "linux") Sample.quiet Sample.gone 60
    = (inr (Sample.gone, NotARepo, []), []).
Proof.
  split; [reflexivity|].
  apply (C5_not_a_repo_no_spawn Sample.tree (lit "linux") Sample.quiet Sample.gone 60).
  reflexivity.
Defined.

(** C4, as the specification words it, fails: here the pull exits with
    status 1 after writing a line to stderr and the submodule step exits with
    status 0 without output. The result is [Failed], but the detail is not
    the labeled concatenation of both outputs: the [--- submodules ---] label
    is missing, and so is the newline that ended the output of the pull, so
    that this output does not occur in the detail as it was written. *)
Lemma C4_labeled_concat_counterexample :
  let pull_output := [] ++ (lit "fatal: unable to access the remote" ++ [10%N]) in
  let submodule_output := [] ++ [] in
  Sample.pull_fails (pull_call (lit "linux") Sample.repo_a 60)
  = Completed 1 [] (lit "fatal: unable to access the remote" ++ [10%N])
  ∧ Sample.pull_fails (submodule_call (lit "linux") Sample.repo_a 60)
    = Completed 0 [] []
  ∧ ∃ detail,
      (run_git_commands Sample.tree (lit "linux") Sample.pull_fails Sample.repo_a 60).1
      = inr (Sample.repo_a, Failed, detail)
      ∧ detail ≠ labeled_concat pull_output submodule_output
      ∧ Str.contains submodules_label detail = false
      ∧ Str.contains pull_output detail = false.
Proof.
  split; [reflexivity|]. split; [reflexivity|].
  eexists. split; [vm_compute; reflexivity|].
  split; [|split; vm_compute; reflexivity].
  vm_compute. discriminate.
Qed.

(** C4, amended. When both commands run to completion and at least one
    exits with a non-zero status, the result is [Failed]. The detail is the
    label [--- git pull ---], a newline and the stdout and stderr of the pull
    with the whitespace at both ends removed; when the stdout and stderr of
    the submodule step are not whitespace only, a newline, the label
    [--- submodules ---], a newline and that output, stripped likewise,
    follow; otherwise nothing follows. *)
Theorem C4_failed_detail fs platform run repo_path timeout
    rc1 out1 err1 rc2 out2 err2 :
  Fs.is_dir fs (Fs.child repo_path dot_git) = true →
  run (pull_call platform repo_path timeout) = Completed rc1 out1 err1 →
  run (submodule_call platform repo_path timeout) = Completed rc2 out2 err2 →
  rc1 ≠ 0 ∨ rc2 ≠ 0 →
  ∃ detail,
    (run_git_commands fs platform run repo_path timeout).1
    = inr (repo_path, Failed, detail)
    ∧ (all_space (out2 ++ err2) →
       detail = pull_label ++ [10%N] ++ Str.strip (out1 ++ err1))
    ∧ (¬ all_space (out2 ++ err2) →
       detail = pull_label ++ [10%N] ++ Str.strip (out1 ++ err1)
                ++ [10%N] ++ submodules_label ++ [10%N] ++ Str.strip (out2 ++ err2)).
Proof.
  intros Hgit H1 H2 Hrc.
  rewrite (run_git_commands_failed _ _ _ _ _ _ _ _ _ _ _ Hgit H1 H2 Hrc). cbn [fst].
  eexists. split; [reflexivity|].
  unfold combined_output. rewrite <-strip_nil.
  destruct (Str.strip (out2 ++ err2)) as [|c t]; split; intros H; try done.
  unfold pull_label. by rewrite app_nil_r.
Qed.

Lemma C4_failed_detail_witness :
  ∃ detail,
    (run_git_commands Sample.tree (lit "linux") Sample.pull_fails Sample.repo_a 60).1
    = inr (Sample.repo_a, Failed, detail)
    ∧ (all_space ([] ++ []) →
       detail = pull_label ++ [10%N]
                ++ Str.strip ([] ++ lit "fatal: unable to access the remote" ++ [10%N]))
    ∧ (¬ all_space ([] ++ []) →
       detail = pull_label ++ [10%N]
                ++ Str.strip ([] ++ lit "fatal: unable to access the remote" ++ [10%N])
                ++ [10%N] ++ submodules_label ++ [10%N] ++ Str.strip ([] ++ [])).
Proof.
  apply (C4_failed_detail Sample.tree (lit "linux") Sample.pull_fails Sample.repo_a 60
           1 [] (lit "fatal: unable to access the remote" ++ [10%N]) 0 [] []);
    [reflexivity | reflexivity | reflexivity | left; lia].
Defined.

(** ** Repository cache *)

Section cache_facts.
Context (fs : node).
Implicit Types (l stored : list path) (σ : st) (w : write_outcome).

Local Abbreviation valid_in l := (filter (λ p, is_repo fs p = true) l).

Lemma writes_app evs1 evs2 : writes (evs1 ++ evs2) = writes evs1 ++ writes evs2.
Proof. apply filter_app. Qed.

(** The loop appends the passing paths, in their order, and only prints. *)
Lemma check_cached_run l acc σ :
  ∃ evs,
    check_cached fs l acc σ = (acc ++ valid_in l, St (cache σ) (log σ ++ evs))
    ∧ writes evs = [].
Proof.
  revert acc σ. induction l as [|p l IH]; intros acc σ; simpl.
  - exists []. rewrite !app_nil_r. by destruct σ.
  - rewrite filter_cons. destruct (is_repo fs p) eqn:Hp; simpl.
    + destruct (IH (acc ++ [p]) σ) as [evs [-> Hw]].
      exists evs. by rewrite <-app_assoc.
    + unfold mbind, IO_bind, print, emit. simpl.
      match goal with |- context [check_cached fs l acc ?s] =>
        destruct (IH acc s) as [evs [-> Hw]] end.
      simpl. eexists (_ :: evs). rewrite <-app_assoc. split; [done|].
      unfold writes. by rewrite filter_cons.
Qed.

Lemma valid_in_length l : length (valid_in l) = length l ↔ valid_in l = l.
Proof.
  split; [|by intros ->].
  induction l as [|p l IH]; [done|].
  rewrite filter_cons. case_decide as Hp; simpl.
  - intros [= H]. by rewrite IH.
  - intros H. pose proof (length_filter (λ p, is_repo fs p = true) l). lia.
Qed.

Lemma valid_in_idemp l : valid_in (valid_in l) = valid_in l.
Proof.
  induction l as [|p l IH]; [done|].
  rewrite filter_cons. case_decide; [|done].
  rewrite filter_cons. case_decide; [|done]. by rewrite IH.
Qed.

(** A load of a readable cache file. *)
Lemma load_cached w cache_file σ stored :
  cache σ = Cache stored →
  ∃ evs,
    load_repositories_from_cache fs w cache_file σ
    = (valid_in stored,
       St (if decide (valid_in stored = stored) then Cache stored
           else cache_after w (valid_in stored) (Cache stored))
          (log σ ++ evs))
    ∧ writes evs
      = (if decide (valid_in stored = stored) then []
         else [WriteCache (valid_in stored) w]).
Proof.
  intros Hc. unfold load_repositories_from_cache.
  unfold mbind, IO_bind, mret, IO_ret, print, emit, read_cache. simpl.
  rewrite Hc.
  match goal with |- context [check_cached fs stored [] ?s] =>
    destruct (check_cached_run stored [] s) as [evs [-> Hw]] end.
  simpl. unfold len.
  destruct (decide (valid_in stored = stored)) as [Heq|Hne].
  - rewrite decide_False by (rewrite Heq; lia). simpl.
    eexists (_ :: evs ++ [_]). rewrite <-!app_assoc. split; [done|].
    unfold writes in *. rewrite filter_cons, filter_app, Hw. done.
  - rewrite decide_True
      by (intros H; apply Nat2Z.inj in H; by apply valid_in_length in H).
    unfold write_cache. simpl.
    destruct w; simpl; rewrite ?Hc;
      (eexists (_ :: evs ++ [_; _; _; _]); rewrite <-!app_assoc; split; [done|]);
      unfold writes in *; rewrite filter_cons, filter_app, Hw; done.
Qed.

(** A load of an absent or unreadable cache file. *)
Lemma load_unreadable w cache_file σ :
  (∀ stored, cache σ ≠ Cache stored) →
  ∃ evs,
    load_repositories_from_cache fs w cache_file σ
    = ([], St (cache σ) (log σ ++ evs))
    ∧ writes evs = [].
Proof.
  intros Hc. unfold load_repositories_from_cache.
  unfold mbind, IO_bind, mret, IO_ret, print, emit, read_cache. simpl.
  destruct (cache σ) as [|e|stored] eqn:E; simpl.
  - eexists [_; _]. by rewrite <-app_assoc.
  - eexists [_; _]. by rewrite <-app_assoc.
  - by destruct (Hc stored).
Qed.

End cache_facts.

(** C6, as the specification words it, fails when the rewrite of the cache
    file fails: [/w/gone] is no repository and is dropped from the returned
    list, [open("w")] raises, the error is printed, and the store still holds
    [/w/gone]: an entry was dropped and the store was not rewritten. *)
Lemma C6_failed_rewrite_counterexample :
  let σ := St (Cache Sample.stale_store) [] in
  let r := load_repositories_from_cache Sample.tree Sample.denied Sample.cache_file σ in
  is_repo Sample.tree Sample.gone = false
  ∧ r.1 = [Sample.repo_a]
  ∧ cache r.2 = Cache Sample.stale_store
  ∧ Sample.gone ∈ Sample.stale_store.
Proof.
  repeat split; try (vm_compute; reflexivity);
    unfold Sample.stale_store; set_solver.
Qed.

(** C6, amended. For a load of a readable cache file: every returned path
    is a directory holding a [.git] directory; no stored path that fails this
    test is returned; the file is written at most once, with the returned
    list, and that write is attempted exactly when a stored path was dropped;
    when the write succeeds the store holds the returned list, hence no
    failing path; when nothing was dropped the store is left as it was. *)
Theorem C6_load_prunes fs w cache_file σ stored :
  cache σ = Cache stored →
  let r := load_repositories_from_cache fs w cache_file σ in
  let dropped := ∃ p, p ∈ stored ∧ is_repo fs p = false in
  Forall (λ p, is_repo fs p = true) r.1
  ∧ (∀ p, p ∈ stored → is_repo fs p = false → p ∉ r.1)
  ∧ (∃ evs, log r.2 = log σ ++ evs
            ∧ (dropped → writes evs = [WriteCache r.1 w])
            ∧ (¬ dropped → writes evs = []))
  ∧ (dropped → w = WriteOk →
     cache r.2 = Cache r.1 ∧ ∀ p, p ∈ r.1 → is_repo fs p = true)
  ∧ (¬ dropped → cache r.2 = cache σ).
Proof.
  intros Hc r dropped. subst r.
  destruct (load_cached fs w cache_file σ stored Hc) as [evs [-> Hw]].
  cbn [fst snd cache log].
  assert (Hd : dropped ↔ filter (λ p, is_repo fs p = true) stored ≠ stored).
  { unfold dropped. split.
    - intros [p [Hin Hp]] Heq. rewrite <-Heq in Hin.
      apply list_elem_of_filter in Hin as [Hin _]. congruence.
    - intros Hne. destruct (decide (Forall (λ p, is_repo fs p = true) stored)) as [Hall|Hex].
      + destruct Hne. clear -Hall. induction Hall as [|p l Hp _ IH]; [done|].
        rewrite filter_cons, decide_True by done. by rewrite IH.
      + apply (not_Forall_Exists _) in Hex.
        apply Exists_exists in Hex. destruct Hex as [p [Hin Hp]].
        exists p. split; [done|]. simpl in Hp. by destruct (is_repo fs p). }
  split; [|split; [|split; [|split]]].
  - apply Forall_forall. intros p Hp. by apply list_elem_of_filter in Hp as [? _].
  - intros p _ Hp Hin. apply list_elem_of_filter in Hin as [? _]. congruence.
  - exists evs. split; [done|]. rewrite Hw. split; intros H.
    + apply Hd in H. by rewrite decide_False.
    + rewrite decide_True; [done|].
      destruct (decide (filter (λ p, is_repo fs p = true) stored = stored)); [done|].
      destruct H. by apply Hd.
  - intros H ->. apply Hd in H. rewrite decide_False by done. split; [done|].
    intros p Hp. by apply list_elem_of_filter in Hp as [? _].
  - intros H. rewrite decide_True; [done|].
    destruct (decide (filter (λ p, is_repo fs p = true) stored = stored)); [done|].
    destruct H. by apply Hd.
Qed.

Lemma C6_load_prunes_witness :
  let σ := St (Cache Sample.stale_store) [] in
  let r := load_repositories_from_cache Sample.tree WriteOk Sample.cache_file σ in
  let dropped := ∃ p, p ∈ Sample.stale_store ∧ is_repo Sample.tree p = false in
  Forall (λ p, is_repo Sample.tree p = true) r.1
  ∧ (∀ p, p ∈ Sample.stale_store → is_repo Sample.tree p = false → p ∉ r.1)
  ∧ (∃ evs, log r.2 = log σ ++ evs
            ∧ (dropped → writes evs = [WriteCache r.1 WriteOk])
            ∧ (¬ dropped → writes evs = []))
  ∧ (dropped → WriteOk = WriteOk →
     cache r.2 = Cache r.1 ∧ ∀ p, p ∈ r.1 → is_repo Sample.tree p = true)
  ∧ (¬ dropped → cache r.2 = cache σ).
Proof.
  apply (C6_load_prunes Sample.tree WriteOk Sample.cache_file
           (St (Cache Sample.stale_store) []) Sample.stale_store).
  reflexivity.
Defined.

(** C7, as the specification words it, fails when the rewrite of the first
    load fails after the file was opened: the first load returns [/w/a]
    and leaves a truncated file, the second load, with nothing changed in
    between, cannot read it and returns the empty list. *)
Lemma C7_failed_rewrite_counterexample :
  let σ := St (Cache Sample.stale_store) [] in
  let r1 := load_repositories_from_cache Sample.tree Sample.disk_full Sample.cache_file σ in
  let r2 := load_repositories_from_cache Sample.tree Sample.disk_full Sample.cache_file r1.2 in
  r1.1 = [Sample.repo_a] ∧ r2.1 = [] ∧ r1.1 ≠ r2.1.
Proof. repeat split; try (vm_compute; reflexivity). vm_compute. discriminate. Qed.

(** C7, amended. Two loads in a row on the same filesystem, the second
    starting from the cache file as the first left it: when the first load
    did not write the file, or its write succeeded, both return the same
    list, and the second load neither writes the file nor changes it. *)
Theorem C7_load_twice fs w1 w2 cache_file σ :
  let r1 := load_repositories_from_cache fs w1 cache_file σ in
  let r2 := load_repositories_from_cache fs w2 cache_file r1.2 in
  w1 = WriteOk ∨ writes (log r1.2) = writes (log σ) →
  r2.1 = r1.1
  ∧ writes (log r2.2) = writes (log r1.2)
  ∧ cache r2.2 = cache r1.2.
Proof.
  intros r1 r2 Hok. subst r1 r2.
  destruct (cache σ) as [|e|stored] eqn:Hc.
  - destruct (load_unreadable fs w1 cache_file σ) as [evs1 [E1 Hw1]]; [by rewrite Hc|].
    rewrite E1 in *. cbn [fst snd] in *.
    destruct (load_unreadable fs w2 cache_file (St (cache σ) (log σ ++ evs1)))
      as [evs2 [E2 Hw2]]; [simpl; by rewrite Hc|].
    rewrite E2. cbn [fst snd cache log].
    by rewrite writes_app, Hw2, app_nil_r.
  - destruct (load_unreadable fs w1 cache_file σ) as [evs1 [E1 Hw1]]; [by rewrite Hc|].
    rewrite E1 in *. cbn [fst snd] in *.
    destruct (load_unreadable fs w2 cache_file (St (cache σ) (log σ ++ evs1)))
      as [evs2 [E2 Hw2]]; [simpl; by rewrite Hc|].
    rewrite E2. cbn [fst snd cache log].
    by rewrite writes_app, Hw2, app_nil_r.
  - destruct (load_cached fs w1 cache_file σ stored Hc) as [evs1 [E1 Hw1]].
    rewrite E1 in *. cbn [fst snd cache log] in *.
    set (valid := filter (λ p, is_repo fs p = true) stored) in *.
    assert (Hc1 : (if decide (valid = stored) then Cache stored
                   else cache_after w1 valid (Cache stored)) = Cache valid).
    { destruct (decide (valid = stored)) as [->|Hne]; [done|].
      destruct Hok as [->|Hw]; [done|].
      rewrite writes_app, Hw1 in Hw.
      apply (f_equal length) in Hw. rewrite length_app in Hw. simpl in Hw. lia. }
    rewrite Hc1.
    destruct (load_cached fs w2 cache_file (St (Cache valid) (log σ ++ evs1)) valid eq_refl)
      as [evs2 [E2 Hw2]].
    rewrite E2. cbn [fst snd cache log].
    unfold valid in Hw2 |- *. rewrite valid_in_idemp in Hw2 |- *.
    rewrite decide_True in Hw2 by done. rewrite decide_True by done.
    by rewrite writes_app, Hw2, app_nil_r.
Qed.

Lemma C7_load_twice_witness :
  let σ := St (Cache Sample.stale_store) [] in
  let r1 := load_repositories_from_cache Sample.tree WriteOk Sample.cache_file σ in
  let r2 := load_repositories_from_cache Sample.tree WriteOk Sample.cache_file r1.2 in
  (WriteOk = WriteOk ∨ writes (log r1.2) = writes (log σ))
  ∧ r2.1 = r1.1
  ∧ writes (log r2.2) = writes (log r1.2)
  ∧ cache r2.2 = cache r1.2.
Proof.
  split; [by left|].
  apply (C7_load_twice Sample.tree WriteOk WriteOk Sample.cache_file
           (St (Cache Sample.stale_store) [])).
  by left.
Defined.

(** What remains of it when the first rewrite fails at [open]: the file is
    untouched, so the second load returns the same list again, and tries the
    rewrite again. *)
Lemma load_twice_after_failed_open fs e w2 cache_file σ :
  let r1 := load_repositories_from_cache fs (OpenFails e) cache_file σ in
  let r2 := load_repositories_from_cache fs w2 cache_file r1.2 in
  r2.1 = r1.1.
Proof.
  intros r1 r2. subst r1 r2.
  destruct (cache σ) as [| e' |stored] eqn:Hc.
  - destruct (load_unreadable fs (OpenFails e) cache_file σ) as [evs1 [-> _]];
      [by rewrite Hc|]. cbn [fst snd].
    destruct (load_unreadable fs w2 cache_file (St (cache σ) (log σ ++ evs1)))
      as [evs2 [-> _]]; [simpl; by rewrite Hc | done].
  - destruct (load_unreadable fs (OpenFails e) cache_file σ) as [evs1 [-> _]];
      [by rewrite Hc|]. cbn [fst snd].
    destruct (load_unreadable fs w2 cache_file (St (cache σ) (log σ ++ evs1)))
      as [evs2 [-> _]]; [simpl; by rewrite Hc | done].
  - destruct (load_cached fs (OpenFails e) cache_file σ stored Hc) as [evs1 [-> _]].
    cbn [fst snd cache_after].
    match goal with |- context [St ?c ?l] =>
      assert (Hsame : c = Cache stored) by (by case_decide);
      destruct (load_cached fs w2 cache_file (St c l) stored Hsame) as [evs2 [-> _]]
    end.
    done.
Qed.

Example second_load_retries_failed_rewrite :
  let σ := St (Cache Sample.stale_store) [] in
  let r1 := load_repositories_from_cache Sample.tree Sample.denied Sample.cache_file σ in
  let r2 := load_repositories_from_cache Sample.tree Sample.denied Sample.cache_file r1.2 in
  r1.1 = [Sample.repo_a] ∧ r2.1 = [Sample.repo_a]
  ∧ writes (log r2.2)
    = [WriteCache [Sample.repo_a] Sample.denied; WriteCache [Sample.repo_a] Sample.denied].
Proof. repeat split; vm_compute; reflexivity. Qed.

Lemma strongly_sorted_pair {A} (R : relation A) m1 p m2 q m3 :
  StronglySorted R (m1 ++ p :: m2 ++ q :: m3) → R p q.
Proof.
  induction m1 as [|x m1 IH]; simpl; intros H.
  - apply StronglySorted_cons in H as [H _].
    eapply Forall_forall in H; [exact H|].
    apply elem_of_app. right. apply elem_of_cons. by left.
  - apply StronglySorted_cons in H as [_ H]. by apply IH.
Qed.

Lemma nodup_no_pair {A} (m1 : list A) p m2 m3 :
  ¬ NoDup (m1 ++ p :: m2 ++ p :: m3).
Proof.
  intros H. apply NoDup_app in H as (_ & _ & H).
  apply NoDup_cons in H as [H _]. apply H.
  apply elem_of_app. right. apply elem_of_cons. by left.
Qed.

(** C10, as worded, fails in its last clause: this store is out of order
    ([/w/gone] stands before [/w/a]) and holds [/w/gone] twice; [/w/gone] is
    no repository, the load drops it, and the returned list and the rewritten
    store hold [/w/a] alone, which is sorted and free of duplicates. *)
Lemma C10_stale_disorder_counterexample :
  let σ := St (Cache Sample.stale_disorder) [] in
  let r := load_repositories_from_cache Sample.tree WriteOk Sample.cache_file σ in
  ¬ StronglySorted Locator.path_le Sample.stale_disorder
  ∧ ¬ NoDup Sample.stale_disorder
  ∧ r.1 = [Sample.repo_a]
  ∧ cache r.2 = Cache [Sample.repo_a]
  ∧ StronglySorted Locator.path_lt [Sample.repo_a]
  ∧ NoDup [Sample.repo_a].
Proof.
  split; [|split; [|split; [|split; [|split]]]].
  - intros H.
    apply (strongly_sorted_pair _ [] Sample.gone [] Sample.repo_a [Sample.gone]) in H.
    apply H. apply (bool_decide_unpack _). vm_compute. exact I.
  - apply (nodup_no_pair [] Sample.gone [Sample.repo_a] []).
  - vm_compute. reflexivity.
  - vm_compute. reflexivity.
  - repeat constructor.
  - apply NoDup_singleton.
Qed.

(** C10, amended. A load of a readable cache file returns the stored paths
    that pass the test, in their stored order and with their repetitions: the
    list is the filter of the stored one, neither sorted nor deduplicated.
    When some path was dropped and the write completes, the store holds that
    same list; when none was dropped the store keeps the stored list as it
    is. Hence two entries that pass the test keep their places relative to
    each other: if they were out of order the returned list is unsorted, if
    they were the same path the returned list has a duplicate. Disorder and
    duplicates that involve a dropped entry go with it. *)
Theorem C10_load_is_filter fs w cache_file σ stored :
  cache σ = Cache stored →
  let r := load_repositories_from_cache fs w cache_file σ in
  let valid := λ p, is_repo fs p = true in
  r.1 = filter valid stored
  ∧ r.1 `sublist_of` stored
  ∧ (r.1 ≠ stored → w = WriteOk → cache r.2 = Cache (filter valid stored))
  ∧ (r.1 = stored → cache r.2 = Cache stored)
  ∧ (∀ l1 p l2 q l3,
       stored = l1 ++ p :: l2 ++ q :: l3 → valid p → valid q →
       r.1 = filter valid l1 ++ p :: filter valid l2 ++ q :: filter valid l3)
  ∧ ((∃ l1 p l2 q l3,
        stored = l1 ++ p :: l2 ++ q :: l3 ∧ valid p ∧ valid q
        ∧ Locator.path_lt q p) →
     ¬ StronglySorted Locator.path_le r.1)
  ∧ ((∃ l1 p l2 l3, stored = l1 ++ p :: l2 ++ p :: l3 ∧ valid p) →
     ¬ NoDup r.1).
Proof.
  intros Hc r valid. subst r.
  destruct (load_cached fs w cache_file σ stored Hc) as [evs [-> _]].
  cbn [fst snd cache].
  change (filter (λ p, is_repo fs p = true) stored) with (filter valid stored).
  assert (Hpair : ∀ l1 p l2 q l3,
            stored = l1 ++ p :: l2 ++ q :: l3 → valid p → valid q →
            filter valid stored
            = filter valid l1 ++ p :: filter valid l2 ++ q :: filter valid l3).
  { intros l1 p l2 q l3 -> Hp Hq.
    rewrite filter_app, filter_cons, decide_True by done.
    by rewrite filter_app, filter_cons, decide_True by done. }
  split; [done|]. split; [apply sublist_filter|].
  split; [|split; [|split; [exact Hpair|split]]].
  - intros Hne ->. by rewrite decide_False.
  - intros Heq. by rewrite decide_True.
  - intros (l1 & p & l2 & q & l3 & Hs & Hp & Hq & Hlt) Hsorted.
    rewrite (Hpair _ _ _ _ _ Hs Hp Hq) in Hsorted.
    by apply strongly_sorted_pair in Hsorted.
  - intros (l1 & p & l2 & l3 & Hs & Hp).
    rewrite (Hpair _ _ _ _ _ Hs Hp Hp). apply nodup_no_pair.
Qed.

Lemma C10_load_is_filter_witness :
  let σ := St (Cache Sample.unsorted_store) [] in
  let r := load_repositories_from_cache Sample.tree WriteOk Sample.cache_file σ in
  let valid := λ p, is_repo Sample.tree p = true in
  r.1 = filter valid Sample.unsorted_store
  ∧ r.1 `sublist_of` Sample.unsorted_store
  ∧ (r.1 ≠ Sample.unsorted_store → WriteOk = WriteOk →
     cache r.2 = Cache (filter valid Sample.unsorted_store))
  ∧ (r.1 = Sample.unsorted_store → cache r.2 = Cache Sample.unsorted_store)
  ∧ (∀ l1 p l2 q l3,
       Sample.unsorted_store = l1 ++ p :: l2 ++ q :: l3 → valid p → valid q →
       r.1 = filter valid l1 ++ p :: filter valid l2 ++ q :: filter valid l3)
  ∧ ((∃ l1 p l2 q l3,
        Sample.unsorted_store = l1 ++ p :: l2 ++ q :: l3 ∧ valid p ∧ valid q
        ∧ Locator.path_lt q p) →
     ¬ StronglySorted Locator.path_le r.1)
  ∧ ((∃ l1 p l2 l3, Sample.unsorted_store = l1 ++ p :: l2 ++ p :: l3 ∧ valid p) →
     ¬ NoDup r.1).
Proof.
  apply (C10_load_is_filter Sample.tree WriteOk Sample.cache_file
           (St (Cache Sample.unsorted_store) []) Sample.unsorted_store).
  reflexivity.
Defined.

(** The sample store of the witness above: out of order and with a
    duplicate before the load, and so after it. *)
Example load_keeps_order_and_duplicates :
  (load_repositories_from_cache Sample.tree WriteOk Sample.cache_file
     (St (Cache Sample.unsorted_store) [])).1
  = [Sample.repo_b; Sample.repo_a; Sample.repo_b].
Proof. vm_compute. reflexivity. Qed.

(** ** Repository locator *)

Section locator_facts.
Implicit Types (fs n x : node) (p q base rest : path) (es : list (pystr * node)).

(** Induction on a tree, with the hypothesis for every entry of a directory. *)
Lemma node_ind_entries (P : node → Prop) :
  P File →
  (∀ es, Forall (λ e, P e.2) es → P (Dir es)) →
  ∀ n, P n.
Proof.
  intros HF HD. fix IH 1. intros [|es]; [exact HF|].
  apply HD. induction es as [|[name x] es IHes]; constructor; [apply IH | exact IHes].
Qed.

Lemma rglob_node_cons base name x es :
  Locator.rglob_node base (Dir ((name, x) :: es))
  = (if decide (name = dot_git) then [Fs.child base name] else [])
    ++ Locator.rglob_node (Fs.child base name) x
    ++ Locator.rglob_node base (Dir es).
Proof. reflexivity. Qed.

(** Every path the walk yields lies below its base and is named [.git]. *)
Lemma rglob_node_below n : ∀ base q,
  q ∈ Locator.rglob_node base n → ∃ rest, q = base ++ rest ++ [dot_git].
Proof.
  induction n as [|es IH] using node_ind_entries; intros base q Hq.
  - by apply elem_of_nil in Hq.
  - induction IH as [|[name x] es Hx _ IHes]; [by apply elem_of_nil in Hq|].
    rewrite rglob_node_cons in Hq.
    apply elem_of_app in Hq as [Hq|Hq]; [|apply elem_of_app in Hq as [Hq|Hq]].
    + case_decide as Hn; [|by apply elem_of_nil in Hq].
      apply list_elem_of_singleton in Hq as ->. subst name. by exists [].
    + apply Hx in Hq as [rest ->]. exists (name :: rest).
      unfold Fs.child. by rewrite <-app_assoc.
    + by apply IHes.
Qed.

Lemma rglob_node_entry base name x es q :
  Fs.find_entry name es = Some x →
  q ∈ (if decide (name = dot_git) then [Fs.child base name] else [])
      ++ Locator.rglob_node (Fs.child base name) x →
  q ∈ Locator.rglob_node base (Dir es).
Proof.
  induction es as [|[name' x'] es IH]; [done|].
  intros Hf Hq. rewrite rglob_node_cons. simpl in Hf.
  destruct (decide (name' = name)) as [->|Hne].
  - injection Hf as ->. rewrite app_assoc. apply elem_of_app. by left.
  - rewrite app_assoc. apply elem_of_app. right. by apply IH.
Qed.

(** Every path named [.git] that resolves below a node is yielded. *)
Lemma rglob_node_complete rest : ∀ n base x,
  Fs.resolve n (rest ++ [dot_git]) = Some x →
  base ++ rest ++ [dot_git] ∈ Locator.rglob_node base n.
Proof.
  induction rest as [|c rest IH]; intros n base x; simpl.
  - destruct n as [|es]; [done|].
    destruct (Fs.find_entry dot_git es) as [y|] eqn:Hf; [|done]. intros _.
    apply (rglob_node_entry _ _ _ _ _ Hf).
    rewrite decide_True by done. apply elem_of_app. left.
    by apply list_elem_of_singleton.
  - destruct n as [|es]; [done|].
    destruct (Fs.find_entry c es) as [y|] eqn:Hf; [|done]. intros Hr.
    apply (rglob_node_entry _ _ _ _ _ Hf). apply elem_of_app. right.
    specialize (IH y (Fs.child base c) x Hr).
    unfold Fs.child in *. by rewrite <-app_assoc in IH.
Qed.

Lemma find_entry_elem name es x :
  Fs.find_entry name es = Some x → (name, x) ∈ es.
Proof.
  induction es as [|[name' x'] es IH]; simpl; [done|].
  case_decide as Hn.
  - intros [= ->]. subst. apply elem_of_cons. by left.
  - intros H. apply elem_of_cons. right. by apply IH.
Qed.

Lemma parent_child p name : Locator.parent (Fs.child p name) = p.
Proof. apply removelast_last. Qed.

(** The paths gathered before sorting. *)
Lemma scan_candidates fs script_dir p :
  p ∈ (filter (λ d, Fs.is_dir fs d = true) (Locator.iterdir fs script_dir)
       ≫= λ directory,
         Locator.parent <$> filter (λ g, Fs.is_dir fs g = true)
                                   (Locator.rglob_git fs directory))
  ↔ ∃ c rest, p = script_dir ++ c :: rest
              ∧ Fs.is_dir fs (Fs.child script_dir c) = true
              ∧ Fs.is_dir fs (Fs.child p dot_git) = true.
Proof.
  rewrite list_elem_of_bind. split.
  - intros [d [Hp Hd]].
    apply list_elem_of_filter in Hd as [Hdir Hd].
    apply list_elem_of_fmap in Hp as [g [-> Hg]].
    apply list_elem_of_filter in Hg as [Hgdir Hg].
    unfold Locator.iterdir in Hd.
    destruct (Fs.resolve fs script_dir) as [[|es]|]; try by apply elem_of_nil in Hd.
    apply list_elem_of_fmap in Hd as [[c y] [-> _]]. simpl in *.
    unfold Locator.rglob_git in Hg.
    destruct (Fs.resolve fs (Fs.child script_dir c)) as [n|];
      [|by apply elem_of_nil in Hg].
    apply rglob_node_below in Hg as [rest ->].
    assert (Hsame : Fs.child script_dir c ++ rest ++ [dot_git]
                    = Fs.child (script_dir ++ c :: rest) dot_git).
    { unfold Fs.child. by rewrite <-!app_assoc. }
    rewrite Hsame in Hgdir |- *. rewrite parent_child.
    by exists c, rest.
  - intros [c [rest [-> [Hc Hg]]]].
    exists (Fs.child script_dir c). split.
    + apply list_elem_of_fmap. exists (Fs.child (script_dir ++ c :: rest) dot_git).
      split; [by rewrite parent_child|].
      apply list_elem_of_filter. split; [done|].
      unfold Locator.rglob_git.
      unfold Fs.is_dir in Hg.
      replace (Fs.child (script_dir ++ c :: rest) dot_git)
        with (Fs.child script_dir c ++ rest ++ [dot_git]) in *
        by (unfold Fs.child; by rewrite <-!app_assoc).
      rewrite resolve_app in Hg.
      destruct (Fs.resolve fs (Fs.child script_dir c)) as [n|]; [|done].
      simpl in Hg.
      destruct (Fs.resolve n (rest ++ [dot_git])) as [x|] eqn:Hr; [|done].
      by apply (rglob_node_complete rest n _ x).
    + apply list_elem_of_filter. split; [done|].
      unfold Locator.iterdir. unfold Fs.is_dir, Fs.child in Hc.
      rewrite resolve_app in Hc.
      destruct (Fs.resolve fs script_dir) as [[|es]|]; try done.
      simpl in Hc. destruct (Fs.find_entry c es) as [y|] eqn:Hf; [|done].
      apply list_elem_of_fmap. exists (c, y). split; [done|].
      by apply find_entry_elem.
Qed.

End locator_facts.

Section order_facts.

#[local] Instance path_le_total : Total Locator.path_le.
Proof.
  intros a b. unfold Locator.path_le, Locator.path_lt.
  destruct (trichotomy lexico a b) as [H|[->|H]].
  - left. intros H'. exact (irreflexivity lexico a (transitivity H H')).
  - left. apply irreflexivity, _.
  - right. intros H'. exact (irreflexivity lexico a (transitivity H' H)).
Qed.

#[local] Instance path_le_trans : Transitive Locator.path_le.
Proof.
  intros a b c. unfold Locator.path_le, Locator.path_lt. intros Hab Hbc Hca.
  destruct (trichotomy lexico a b) as [H|[->|H]]; [|done|done].
  apply Hbc. by transitivity a.
Qed.

Lemma path_le_neq_lt (a b : path) :
  Locator.path_le a b → a ≠ b → Locator.path_lt a b.
Proof.
  unfold Locator.path_le, Locator.path_lt. intros Hle Hne.
  by destruct (trichotomy lexico a b) as [H|[->|H]].
Qed.

Lemma sorted_nodup_strict (xs : list path) :
  StronglySorted Locator.path_le xs → NoDup xs →
  StronglySorted Locator.path_lt xs.
Proof.
  induction 1 as [|x xs Hs IH Hx]; intros Hnd; [constructor|].
  apply NoDup_cons in Hnd as [Hnotin Hnd].
  constructor; [by apply IH|].
  apply Forall_forall. intros y Hy.
  apply path_le_neq_lt; [by eapply Forall_forall in Hx|].
  by intros ->.
Qed.

(** [sorted(list(set(repos)))] has the elements of [repos], each once,
    in strictly increasing order. *)
Lemma sorted_set_spec (repos : list path) :
  (∀ p, p ∈ Locator.sorted_set repos ↔ p ∈ repos)
  ∧ NoDup (Locator.sorted_set repos)
  ∧ StronglySorted Locator.path_lt (Locator.sorted_set repos).
Proof.
  unfold Locator.sorted_set.
  set (l := elements (list_to_set repos : gset path)).
  assert (Hperm : merge_sort Locator.path_le l ≡ₚ l) by apply merge_sort_Permutation.
  assert (Hnd : NoDup (merge_sort Locator.path_le l)).
  { rewrite Hperm. apply NoDup_elements. }
  split; [|split; [done|]].
  - intros p. rewrite Hperm. unfold l. rewrite elem_of_elements.
    apply elem_of_list_to_set.
  - apply sorted_nodup_strict; [|done].
    apply (StronglySorted_merge_sort Locator.path_le).
Qed.

End order_facts.

(** C8. The scan returns exactly the paths [p] that lie in or below a
    directory directly inside the root and that hold a [.git] directory; the
    root itself is never among them; the list has no duplicates and is in
    strictly increasing order of paths. *)
Theorem C8_scan_finds_repositories fs w script_dir cache_file σ :
  Fs.is_dir fs script_dir = true →
  let found := (find_and_cache_repositories fs w script_dir cache_file σ).1 in
  (∀ p, p ∈ found ↔
        (∃ c rest, p = script_dir ++ c :: rest
                   ∧ Fs.is_dir fs (Fs.child script_dir c) = true
                   ∧ Fs.is_dir fs (Fs.child p dot_git) = true))
  ∧ (script_dir ∉ found)
  ∧ NoDup found
  ∧ StronglySorted Locator.path_lt found.
Proof.
  intros _ found.
  assert (Hf : found = Locator.scan fs script_dir).
  { unfold found, find_and_cache_repositories.
    unfold mbind, IO_bind, mret, IO_ret, print, emit, write_cache. simpl.
    by destruct w. }
  rewrite Hf. unfold Locator.scan.
  match goal with |- context [Locator.sorted_set ?r] =>
    destruct (sorted_set_spec r) as [Hin [Hnd Hs]] end.
  assert (Hall : ∀ p, p ∈ Locator.scan fs script_dir ↔
            ∃ c rest, p = script_dir ++ c :: rest
                      ∧ Fs.is_dir fs (Fs.child script_dir c) = true
                      ∧ Fs.is_dir fs (Fs.child p dot_git) = true).
  { intros p. unfold Locator.scan. rewrite Hin. apply scan_candidates. }
  split; [exact Hall|]. split; [|by split].
  intros Hroot. apply Hall in Hroot as [c [rest [Heq _]]].
  apply (f_equal length) in Heq. rewrite length_app in Heq. simpl in Heq. lia.
Qed.

Lemma C8_scan_finds_repositories_witness :
  let found :=
    (find_and_cache_repositories Sample.tree WriteOk Sample.w Sample.cache_file
       (St NoCache [])).1 in
  Fs.is_dir Sample.tree Sample.w = true
  ∧ (∀ p, p ∈ found ↔
          (∃ c rest, p = Sample.w ++ c :: rest
                     ∧ Fs.is_dir Sample.tree (Fs.child Sample.w c) = true
                     ∧ Fs.is_dir Sample.tree (Fs.child p dot_git) = true))
  ∧ (Sample.w ∉ found)
  ∧ NoDup found
  ∧ StronglySorted Locator.path_lt found.
Proof.
  split; [reflexivity|].
  apply (C8_scan_finds_repositories Sample.tree WriteOk Sample.w Sample.cache_file
           (St NoCache [])).
  reflexivity.
Defined.

(** The scan of the sample tree: the file named [.git] in [/w/b/sub] does
    not count, the repository nested in [/w/b] does. *)
Example scan_sample :
  Locator.scan Sample.tree Sample.w
  = [Sample.repo_a; Sample.repo_b; [lit "w"; lit "b"; lit "deep"; lit "x"]].
Proof. vm_compute. reflexivity. Qed.

(** ** Command line *)

(** C3, as the specification words it, fails: with [--max-workers 99] on a
    machine with 8 cores the checker of the option rejects 99, which lies
    outside 1..64, and [argparse] ends the process with status 2; the
    over-capacity warning is not printed, nothing is printed on stdout at
    all. *)
Lemma C3_max_workers_99_counterexample :
  let r := main Sample.eight_cores (Cli.CommandLine (Some (lit "99")) false)
                (St NoCache []) in
  r.1 = ArgparseError (lit "Value must be between 1 and 64.")
  ∧ exit_code r.1 = 2
  ∧ exit_code r.1 ≠ 1
  ∧ (Print (over_capacity_warning 99 8) ∉ log r.2)
  ∧ log r.2 = [].
Proof.
  assert (H : main Sample.eight_cores (Cli.CommandLine (Some (lit "99")) false)
                   (St NoCache [])
              = (ArgparseError (lit "Value must be between 1 and 64."), St NoCache []))
    by (vm_compute; reflexivity).
  cbv zeta. rewrite H. cbn [fst snd log exit_code].
  repeat split; [lia | apply not_elem_of_nil].
Qed.

(** C3, amended. A worker count above the detected number of cores always
    ends the process with a non-zero status before any repository work, the
    cache file untouched, no command run. When the count lies in 1..64,
    [main] prints the over-capacity warning and the advice that follows it
    and exits with status 1. When it lies outside 1..64, as 99 does, the
    option is rejected while the command line is parsed: the status is 2 and
    nothing is printed on stdout. *)
Theorem C3_over_capacity_is_fatal E cl σ value_str v cpus :
  Cli.opt_max_workers cl = Some value_str →
  Cli.py_int value_str = Some v →
  cpu_count E = Some cpus →
  cpus < v →
  let r := main E cl σ in
  exit_code r.1 ≠ 0
  ∧ cache r.2 = cache σ
  ∧ (1 ≤ v ≤ 64 →
     r.1 = SysExit 1
     ∧ log r.2 = log σ ++ [
         Print (over_capacity_warning v cpus);
         Print (lit "Consider reducing the number of workers for better performance.")])
  ∧ (¬ 1 ≤ v ≤ 64 →
     r.1 = ArgparseError (lit "Value must be between 1 and 64.")
     ∧ exit_code r.1 = 2
     ∧ log r.2 = log σ).
Proof.
  intros Hopt Hint Hcpu Hlt r. subst r.
  unfold main, Cli.parse_args, Cli.positive_int_range. rewrite Hopt, Hint.
  destruct (decide (1 ≤ v ≤ 64)) as [Hin|Hout].
  - assert (Hb : (1 <=? v) && (v <=? 64) = true).
    { apply andb_true_iff. split; apply Z.leb_le; lia. }
    rewrite Hb. cbn [negb Cli.max_workers].
    rewrite decide_False by lia. rewrite Hcpu. rewrite decide_True by lia.
    unfold mbind, IO_bind, mret, IO_ret, print, emit.
    cbn [fst snd cache log exit_code].
    split; [lia|]. split; [done|]. split; [|done].
    intros _. split; [done|]. by rewrite <-app_assoc.
  - assert (Hb : (1 <=? v) && (v <=? 64) = false).
    { apply andb_false_iff.
      destruct (decide (1 ≤ v)); [right|left]; [apply Z.leb_gt | apply Z.leb_gt]; lia. }
    rewrite Hb. cbn [negb]. unfold mret, IO_ret.
    cbn [fst snd cache log exit_code].
    split; [lia|]. split; [done|]. split; [done|]. intros _.
    split; [|done]. f_equal.
Qed.

Lemma C3_over_capacity_is_fatal_witness :
  let r := main Sample.eight_cores (Cli.CommandLine (Some (lit "12")) false)
                (St NoCache []) in
  exit_code r.1 ≠ 0
  ∧ cache r.2 = NoCache
  ∧ (1 ≤ 12 ≤ 64 →
     r.1 = SysExit 1
     ∧ log r.2 = [] ++ [
         Print (over_capacity_warning 12 8);
         Print (lit "Consider reducing the number of workers for better performance.")])
  ∧ (¬ 1 ≤ 12 ≤ 64 →
     r.1 = ArgparseError (lit "Value must be between 1 and 64.")
     ∧ exit_code r.1 = 2
     ∧ log r.2 = []).
Proof.
  apply (C3_over_capacity_is_fatal Sample.eight_cores
           (Cli.CommandLine (Some (lit "12")) false) (St NoCache []) (lit "12") 12 8);
    [reflexivity | reflexivity | reflexivity | lia].
Defined.

(** ** Orchestrator *)

Section orchestrator_facts.

(** [run_git_commands] returns a result for the path it was given,
    whatever [subprocess.run] does. *)
Local Ltac by_calls :=
  split; intros;
  repeat match goal with
    | H : _ ∈ _ :: _ |- _ => apply elem_of_cons in H as [->|H]
    | H : _ ∈ [] |- _ => by apply elem_of_nil in H
    end;
  congruence.

Lemma run_git_commands_returns fs platform run repo_path timeout :
  ∃ s detail calls,
    run_git_commands fs platform run repo_path timeout
    = (inr (repo_path, s, detail), calls)
    ∧ (∀ c, c ∈ calls → run c = TimedOut → s = Timeout)
    ∧ (∀ c e, c ∈ calls → run c = Raised e → s = Error).
Proof.
  destruct (Fs.is_dir fs (Fs.child repo_path dot_git)) eqn:Hgit.
  2: { rewrite run_git_commands_not_repo by done.
       eexists _, _, _. split; [reflexivity | by_calls]. }
  destruct (run (pull_call platform repo_path timeout)) as [rc1 o1 e1| |e] eqn:H1.
  - destruct (run (submodule_call platform repo_path timeout))
      as [rc2 o2 e2| |e] eqn:H2.
    + destruct (decide (rc1 = 0 ∧ rc2 = 0)) as [[-> ->]|Hrc].
      * rewrite (run_git_commands_zero _ _ _ _ _ _ _ _ _ Hgit H1 H2).
        destruct (_ && _); eexists _, _, _; (split; [reflexivity | by_calls]).
      * rewrite (run_git_commands_failed _ _ _ _ _ _ _ _ _ _ _ Hgit H1 H2) by lia.
        eexists _, _, _. split; [reflexivity | by_calls].
    + rewrite (run_git_commands_submodule_times_out _ _ _ _ _ _ _ _ Hgit H1 H2).
      eexists _, _, _. split; [reflexivity | by_calls].
    + rewrite (run_git_commands_submodule_raises _ _ _ _ _ _ _ _ _ Hgit H1 H2).
      eexists _, _, _. split; [reflexivity | by_calls].
  - rewrite (run_git_commands_pull_times_out _ _ _ _ _ Hgit H1).
    eexists _, _, _. split; [reflexivity | by_calls].
  - rewrite (run_git_commands_pull_raises _ _ _ _ _ _ Hgit H1).
    eexists _, _, _. split; [reflexivity | by_calls].
Qed.

(** [as_completed] yields every future once. *)
Lemma complete_order_perm {A} n : ∀ sched (pending : list A),
  length pending = n → complete_order n sched pending ≡ₚ pending.
Proof.
  induction n as [|n IH]; intros sched pending Hlen; simpl.
  - by destruct pending.
  - destruct (pending !! (hd 0%nat sched `mod` length pending)%nat) as [x|] eqn:Hx.
    + rewrite IH.
      * symmetry. by apply delete_Permutation.
      * rewrite length_delete by done. lia.
    + apply lookup_ge_None in Hx.
      pose proof (Nat.mod_upper_bound (hd 0%nat sched) (length pending)). lia.
Qed.

Lemma as_completed_perm {A} sched (futures : list A) :
  as_completed sched futures ≡ₚ futures.
Proof. by apply complete_order_perm. Qed.


Lemma submit_all_returned E repos :
  Forall (λ f : Try update_result, ∃ r, f.1 = inr r) (submit_all E repos).
Proof.
  apply Forall_forall. intros f Hf.
  apply list_elem_of_lookup in Hf as [i Hi].
  unfold submit_all in Hi. rewrite list_lookup_imap in Hi.
  destruct (repos !! i) as [repo|]; [|done]. injection Hi as <-.
  destruct (run_git_commands_returns (fs E) (platform E) (run_task E i) repo 60)
    as [s [detail [calls [-> _]]]].
  by eexists.
Qed.


End orchestrator_facts.


(** Where it raises, the exception leaves the function, before any call. *)
Lemma run_git_commands_stat_raises errs fs platform run repo_path timeout e :
  errs (Fs.child repo_path dot_git) = Some e →
  run_git_commands_stat errs fs platform run repo_path timeout
  = (inl (OtherException e), []).
Proof.
  intros H. unfold run_git_commands_stat, path_is_dir. by rewrite H.
Qed.

(** C9, where the code departs from it. [/w/a] and [/w/b] are in the list
    and [/w/a] has since lost its search permission: the [stat] behind
    [(repo_path / ".git").is_dir()] is refused, and that test stands before
    the [try] statement. The update of [/w/a] raises instead of returning a
    result, no status being given to it; [future.result()] raises it again in
    the loop of [main], which ends there with an uncaught exception, exit
    status 1, and without the line [All tasks completed.], although the
    update of [/w/b] was up to date and every command that was run had
    succeeded. *)
Theorem C9_guard_failure_aborts_the_run :
  let e := lit "[Errno 13] Permission denied: '/w/a/.git'" in
  let r := run_updates_stat Sample.no_access Sample.all_quiet (Cli.Args 2 false)
             [Sample.repo_b; Sample.repo_a] (St (Cache [Sample.repo_b; Sample.repo_a]) []) in
  Sample.no_access (Fs.child Sample.repo_a dot_git) = Some e
  ∧ is_repo Sample.tree Sample.repo_a = true
  ∧ run_git_commands_stat Sample.no_access Sample.tree (lit "linux") Sample.quiet
      Sample.repo_a 60
    = (inl (OtherException e), [])
  ∧ r.1 = Uncaught e
  ∧ exit_code r.1 = 1
  ∧ (Print (lit "All tasks completed.") ∉ log r.2).
Proof.
  split; [reflexivity|]. split; [reflexivity|]. split; [reflexivity|].
  split; [vm_compute; reflexivity|]. split; [vm_compute; reflexivity|].
  apply (bool_decide_unpack _). vm_compute. exact I.
Qed.

(** The statuses on the sample machine in the order of submission: nothing
    to pull, a failed pull, a pull that could not be launched. *)
Example isolated_failures_sample :
  status_of <$> submit_all Sample.eight_cores
                  [Sample.repo_a; Sample.repo_b; [lit "w"; lit "b"; lit "deep"; lit "x"]]
  = [Some UpToDate; Some Failed; Some Error].
Proof. vm_compute. reflexivity. Qed.


(** * Further properties of the code *)

(** ** [run_git_commands]: the calls it makes and the detail it returns *)

Lemma combined_output_not_empty (pull_output submodule_output : pystr) :
  combined_output pull_output submodule_output ≠ [].
Proof. unfold combined_output. by cbv [lit]. Qed.

(** X1. In a repository the pull is always the first call, and the
    submodule step is started exactly when the pull ran to completion,
    whatever its exit status: a pull that exits non-zero does not stop the
    second command. Every call is made in the repository, with the timeout
    given and the priority arguments of the platform. *)
Theorem X1_submodule_step_follows_completed_pull fs platform run repo_path timeout :
  Fs.is_dir fs (Fs.child repo_path dot_git) = true →
  let calls := (run_git_commands fs platform run repo_path timeout).2 in
  ((∃ rc out err, run (pull_call platform repo_path timeout) = Completed rc out err) →
   calls = [pull_call platform repo_path timeout;
            submodule_call platform repo_path timeout])
  ∧ ((∀ rc out err, run (pull_call platform repo_path timeout) ≠ Completed rc out err) →
     calls = [pull_call platform repo_path timeout])
  ∧ Forall (λ c, cwd c = repo_path ∧ call_timeout c = timeout
                 ∧ kwargs c = priority_for platform) calls.
Proof.
  intros Hgit calls. subst calls.
  destruct (run (pull_call platform repo_path timeout)) as [rc1 o1 e1| |e] eqn:H1.
  - assert (Hcalls : (run_git_commands fs platform run repo_path timeout).2
                     = [pull_call platform repo_path timeout;
                        submodule_call platform repo_path timeout]).
    { destruct (run (submodule_call platform repo_path timeout))
        as [rc2 o2 e2| |e] eqn:H2.
      - destruct (decide (rc1 = 0 ∧ rc2 = 0)) as [[-> ->]|Hrc].
        + by rewrite (run_git_commands_zero _ _ _ _ _ _ _ _ _ Hgit H1 H2).
        + by rewrite (run_git_commands_failed _ _ _ _ _ _ _ _ _ _ _ Hgit H1 H2) by lia.
      - by rewrite (run_git_commands_submodule_times_out _ _ _ _ _ _ _ _ Hgit H1 H2).
      - by rewrite (run_git_commands_submodule_raises _ _ _ _ _ _ _ _ _ Hgit H1 H2). }
    rewrite Hcalls. split; [done|]. split.
    + intros Hno. by destruct (Hno rc1 o1 e1).
    + by repeat constructor.
  - rewrite (run_git_commands_pull_times_out _ _ _ _ _ Hgit H1). cbn [snd].
    split; [by intros (? & ? & ? & ?)|]. split; [done | by repeat constructor].
  - rewrite (run_git_commands_pull_raises _ _ _ _ _ _ Hgit H1). cbn [snd].
    split; [by intros (? & ? & ? & ?)|]. split; [done | by repeat constructor].
Qed.

Lemma X1_submodule_step_follows_completed_pull_witness :
  let calls :=
    (run_git_commands Sample.tree (lit "linux") Sample.pull_fails Sample.repo_a 60).2 in
  ((∃ rc out err,
      Sample.pull_fails (pull_call (lit "linux") Sample.repo_a 60) = Completed rc out err) →
   calls = [pull_call (lit "linux") Sample.repo_a 60;
            submodule_call (lit "linux") Sample.repo_a 60])
  ∧ ((∀ rc out err,
        Sample.pull_fails (pull_call (lit "linux") Sample.repo_a 60) ≠ Completed rc out err) →
     calls = [pull_call (lit "linux") Sample.repo_a 60])
  ∧ Forall (λ c, cwd c = Sample.repo_a ∧ call_timeout c = 60
                 ∧ kwargs c = priority_for (lit "linux")) calls.
Proof.
  apply (X1_submodule_step_follows_completed_pull Sample.tree (lit "linux")
           Sample.pull_fails Sample.repo_a 60).
  reflexivity.
Defined.

(** X2. The detail is empty exactly for the statuses [NotARepo] and
    [UpToDate]: every failure, timeout, error and successful update comes
    with a text, so that [main] prints a [Details:] block for each of them
    and for nothing else. *)
Theorem X2_detail_empty_iff_nothing_to_report fs platform run repo_path timeout :
  ∃ s detail,
    (run_git_commands fs platform run repo_path timeout).1
    = inr (repo_path, s, detail)
    ∧ (detail = [] ↔ s = NotARepo ∨ s = UpToDate).
Proof.
  destruct (Fs.is_dir fs (Fs.child repo_path dot_git)) eqn:Hgit.
  2: { rewrite run_git_commands_not_repo by done.
       eexists _, _. split; [reflexivity|]. split; [by left | done]. }
  assert (Hne : ∀ (s : status) (d : pystr), d ≠ [] → s ≠ NotARepo → s ≠ UpToDate →
                (d = [] ↔ s = NotARepo ∨ s = UpToDate))
    by (intros s d ???; split; [done | by intros [?|?]]).
  destruct (run (pull_call platform repo_path timeout)) as [rc1 o1 e1| |e] eqn:H1.
  - destruct (run (submodule_call platform repo_path timeout))
      as [rc2 o2 e2| |e] eqn:H2.
    + destruct (decide (rc1 = 0 ∧ rc2 = 0)) as [[-> ->]|Hrc].
      * rewrite (run_git_commands_zero _ _ _ _ _ _ _ _ _ Hgit H1 H2).
        destruct (_ && _); eexists _, _; (split; [reflexivity|]).
        -- split; [by right | done].
        -- apply Hne; [apply combined_output_not_empty | done | done].
      * rewrite (run_git_commands_failed _ _ _ _ _ _ _ _ _ _ _ Hgit H1 H2) by lia.
        eexists _, _. split; [reflexivity|].
        apply Hne; [apply combined_output_not_empty | done | done].
    + rewrite (run_git_commands_submodule_times_out _ _ _ _ _ _ _ _ Hgit H1 H2).
      eexists _, _. split; [reflexivity|]. apply Hne; [by cbv [lit] | done | done].
    + rewrite (run_git_commands_submodule_raises _ _ _ _ _ _ _ _ _ Hgit H1 H2).
      eexists _, _. split; [reflexivity|]. apply Hne; [by cbv [lit] | done | done].
  - rewrite (run_git_commands_pull_times_out _ _ _ _ _ Hgit H1).
    eexists _, _. split; [reflexivity|]. apply Hne; [by cbv [lit] | done | done].
  - rewrite (run_git_commands_pull_raises _ _ _ _ _ _ Hgit H1).
    eexists _, _. split; [reflexivity|]. apply Hne; [by cbv [lit] | done | done].
Qed.

(** X3. When the pull ran to completion and the submodule step exceeds the
    timeout, the result is [Timeout] and the detail names the submodule
    command; nothing of what the pull printed, whatever it did, is in the
    result. *)
Theorem X3_submodule_timeout_drops_pull_output fs platform run repo_path timeout
    rc out err :
  Fs.is_dir fs (Fs.child repo_path dot_git) = true →
  run (pull_call platform repo_path timeout) = Completed rc out err →
  run (submodule_call platform repo_path timeout) = TimedOut →
  (run_git_commands fs platform run repo_path timeout).1
  = inr (repo_path, Timeout,
         lit "Command timed out: Command '['git', 'submodule', 'update', '--init', '--recursive']' timed out after "
         ++ Str.of_int timeout ++ lit " seconds").
Proof.
  intros Hgit H1 H2.
  by rewrite (run_git_commands_submodule_times_out _ _ _ _ _ _ _ _ Hgit H1 H2).
Qed.

Lemma X3_submodule_timeout_drops_pull_output_witness :
  (run_git_commands Sample.tree (lit "linux") Sample.pull_then_hang Sample.repo_a 60).1
  = inr (Sample.repo_a, Timeout,
         lit "Command timed out: Command '['git', 'submodule', 'update', '--init', '--recursive']' timed out after "
         ++ Str.of_int 60 ++ lit " seconds").
Proof.
  apply (X3_submodule_timeout_drops_pull_output Sample.tree (lit "linux")
           Sample.pull_then_hang Sample.repo_a 60 0
           (lit "Updating 1a2b3c4..5d6e7f8" ++ [10%N]) []); reflexivity.
Defined.

(** X4. When [subprocess.run] raises anything but a timeout, for the pull
    or, the pull having completed, for the submodule step, the result is
    [Error] and the detail is [An unexpected error occurred: ] followed by the
    text of the exception. *)
Theorem X4_launch_failure_is_error fs platform run repo_path timeout e :
  Fs.is_dir fs (Fs.child repo_path dot_git) = true →
  run (pull_call platform repo_path timeout) = Raised e
  ∨ (∃ rc out err,
       run (pull_call platform repo_path timeout) = Completed rc out err
       ∧ run (submodule_call platform repo_path timeout) = Raised e) →
  (run_git_commands fs platform run repo_path timeout).1
  = inr (repo_path, Error, lit "An unexpected error occurred: " ++ e).
Proof.
  intros Hgit [H1|(rc & out & err & H1 & H2)].
  - by rewrite (run_git_commands_pull_raises _ _ _ _ _ _ Hgit H1).
  - by rewrite (run_git_commands_submodule_raises _ _ _ _ _ _ _ _ _ Hgit H1 H2).
Qed.

Lemma X4_launch_failure_is_error_witness :
  (run_git_commands Sample.tree (lit "linux") Sample.no_git Sample.repo_a 60).1
  = inr (Sample.repo_a, Error,
         lit "An unexpected error occurred: "
         ++ lit "[Errno 2] No such file or directory: 'git'").
Proof.
  apply (X4_launch_failure_is_error Sample.tree (lit "linux") Sample.no_git
           Sample.repo_a 60); [reflexivity | by left].
Defined.

(** X5. When both commands exit with status zero and the update is not
    classified as up to date, the result is [Success] and its detail has the
    layout of a failure's: the pull block, and the submodule block only when
    the submodule step printed something other than whitespace. *)
Theorem X5_success_detail fs platform run repo_path timeout out1 err1 out2 err2 :
  Fs.is_dir fs (Fs.child repo_path dot_git) = true →
  run (pull_call platform repo_path timeout) = Completed 0 out1 err1 →
  run (submodule_call platform repo_path timeout) = Completed 0 out2 err2 →
  ¬ (marker_seen (out1 ++ err1) ∧ all_space (out2 ++ err2)) →
  ∃ detail,
    (run_git_commands fs platform run repo_path timeout).1
    = inr (repo_path, Success, detail)
    ∧ (all_space (out2 ++ err2) →
       detail = pull_label ++ [10%N] ++ Str.strip (out1 ++ err1))
    ∧ (¬ all_space (out2 ++ err2) →
       detail = pull_label ++ [10%N] ++ Str.strip (out1 ++ err1)
                ++ [10%N] ++ submodules_label ++ [10%N] ++ Str.strip (out2 ++ err2)).
Proof.
  intros Hgit H1 H2 Hnot.
  rewrite (run_git_commands_zero _ _ _ _ _ _ _ _ _ Hgit H1 H2). cbn [fst].
  pose proof (contains_spec up_to_date_marker (out1 ++ err1)) as Hc.
  fold (marker_seen (out1 ++ err1)) in Hc.
  pose proof (strip_nil (out2 ++ err2)) as Hs.
  assert (Hb : Str.contains up_to_date_marker (out1 ++ err1)
               && bool_decide (Str.strip (out2 ++ err2) = []) = false).
  { apply andb_false_iff.
    destruct (Str.contains up_to_date_marker (out1 ++ err1)); [right|by left].
    apply bool_decide_eq_false. intros Hq. apply Hnot. split; [by apply Hc | by apply Hs]. }
  rewrite Hb. eexists. split; [reflexivity|].
  unfold combined_output. rewrite <-Hs.
  destruct (Str.strip (out2 ++ err2)) as [|c t]; split; intros H; try done.
  unfold pull_label. by rewrite app_nil_r.
Qed.

Lemma X5_success_detail_witness :
  ∃ detail,
    (run_git_commands Sample.tree (lit "linux") Sample.pull_updates Sample.repo_a 60).1
    = inr (Sample.repo_a, Success, detail)
    ∧ (all_space ([] ++ []) →
       detail = pull_label ++ [10%N]
                ++ Str.strip ((lit "Updating 1a2b3c4..5d6e7f8" ++ [10%N]
                               ++ lit "Fast-forward" ++ [10%N]) ++ []))
    ∧ (¬ all_space ([] ++ []) →
       detail = pull_label ++ [10%N]
                ++ Str.strip ((lit "Updating 1a2b3c4..5d6e7f8" ++ [10%N]
                               ++ lit "Fast-forward" ++ [10%N]) ++ [])
                ++ [10%N] ++ submodules_label ++ [10%N] ++ Str.strip ([] ++ [])).
Proof.
  apply (X5_success_detail Sample.tree (lit "linux") Sample.pull_updates Sample.repo_a 60
           (lit "Updating 1a2b3c4..5d6e7f8" ++ [10%N] ++ lit "Fast-forward" ++ [10%N])
           [] [] []); [reflexivity | reflexivity | reflexivity |].
  intros [Hm _]. apply contains_spec in Hm. vm_compute in Hm. discriminate.
Defined.

(** ** The scan and the cache file *)

Lemma elem_of_scan fs script_dir p :
  p ∈ Locator.scan fs script_dir
  ↔ (∃ c rest, p = script_dir ++ c :: rest
               ∧ Fs.is_dir fs (Fs.child script_dir c) = true
               ∧ Fs.is_dir fs (Fs.child p dot_git) = true).
Proof.
  unfold Locator.scan.
  match goal with |- context [Locator.sorted_set ?r] =>
    destruct (sorted_set_spec r) as [Hin _] end.
  rewrite Hin. apply scan_candidates.
Qed.

Lemma scan_is_repo fs script_dir p :
  p ∈ Locator.scan fs script_dir → is_repo fs p = true.
Proof.
  intros Hp. apply elem_of_scan in Hp as (c & rest & _ & _ & Hgit).
  by apply is_repo_iff.
Qed.

Lemma filter_all {A} (P : A → Prop) `{∀ x, Decision (P x)} (l : list A) :
  Forall P l → filter P l = l.
Proof.
  induction 1 as [|x l Hx _ IH]; [done|].
  by rewrite filter_cons, decide_True, IH.
Qed.

(** A run of [find_and_cache_repositories]. *)
Lemma find_and_cache_run fs w script_dir cache_file σ :
  ∃ evs,
    find_and_cache_repositories fs w script_dir cache_file σ
    = (Locator.scan fs script_dir,
       St (cache_after w (Locator.scan fs script_dir) (cache σ)) (log σ ++ evs))
    ∧ writes evs = [WriteCache (Locator.scan fs script_dir) w].
Proof.
  unfold find_and_cache_repositories.
  unfold mbind, IO_bind, mret, IO_ret, print, emit, write_cache. simpl.
  destruct w; simpl; (eexists [_; _; _]; rewrite <-!app_assoc; split; [done|]);
    done.
Qed.

(** X6. A directory whose [.git] is a file, as in a submodule checkout or
    a linked worktree, is not taken for a repository anywhere: the update
    returns [NotARepo] without a call, the test of the cache load fails, and
    no scan lists it. *)
Theorem X6_git_file_is_no_repository fs platform run p timeout script_dir :
  Fs.resolve fs (Fs.child p dot_git) = Some File →
  run_git_commands fs platform run p timeout = (inr (p, NotARepo, []), [])
  ∧ is_repo fs p = false
  ∧ p ∉ Locator.scan fs script_dir.
Proof.
  intros Hfile.
  assert (Hnd : Fs.is_dir fs (Fs.child p dot_git) = false)
    by (unfold Fs.is_dir; by rewrite Hfile).
  split; [by apply run_git_commands_not_repo|]. split.
  - destruct (is_repo fs p) eqn:E; [|done]. apply is_repo_iff in E. congruence.
  - intros Hin. apply scan_is_repo, is_repo_iff in Hin. congruence.
Qed.

Lemma X6_git_file_is_no_repository_witness :
  let p := [lit "w"; lit "b"; lit "sub"] in
  Fs.resolve Sample.tree (Fs.child p dot_git) = Some File
  ∧ run_git_commands Sample.tree (lit "linux") Sample.quiet p 60
    = (inr (p, NotARepo, []), [])
  ∧ is_repo Sample.tree p = false
  ∧ p ∉ Locator.scan Sample.tree Sample.w.
Proof.
  split; [reflexivity|].
  apply (X6_git_file_is_no_repository Sample.tree (lit "linux") Sample.quiet
           [lit "w"; lit "b"; lit "sub"] 60 Sample.w).
  reflexivity.
Defined.

(** X7. A rebuild of the cache for a directory returns what the scan of
    that directory finds, the paths in or below one of its subdirectories
    that hold a [.git] directory, whatever happens to the write of the cache
    file, which is attempted once, with that list: a failing write is
    reported and does not cost the caller the list. After a write that
    succeeds the file holds the list; after [open] failed it is as before;
    after a failure past [open] it is left unreadable. *)
Theorem X7_rebuild_returns_scan_despite_write_failure fs w script_dir cache_file σ :
  Fs.is_dir fs script_dir = true →
  let r := find_and_cache_repositories fs w script_dir cache_file σ in
  r.1 = Locator.scan fs script_dir
  ∧ (∀ p, p ∈ r.1 ↔
          (∃ c rest, p = script_dir ++ c :: rest
                     ∧ Fs.is_dir fs (Fs.child script_dir c) = true
                     ∧ Fs.is_dir fs (Fs.child p dot_git) = true))
  ∧ (∃ evs, log r.2 = log σ ++ evs ∧ writes evs = [WriteCache r.1 w])
  ∧ (w = WriteOk → cache r.2 = Cache r.1)
  ∧ (∀ e, w = OpenFails e → cache r.2 = cache σ)
  ∧ (∀ e later, w = DumpFails e later → cache r.2 = BadCache later).
Proof.
  intros _ r. subst r.
  destruct (find_and_cache_run fs w script_dir cache_file σ) as [evs [-> Hw]].
  cbn [fst snd cache log]. split; [done|]. split; [apply elem_of_scan|].
  split; [by exists evs|].
  split; [by intros ->|]. split; [by intros ? ->|by intros ?? ->].
Qed.

Lemma X7_rebuild_returns_scan_despite_write_failure_witness :
  let σ := St (Cache Sample.stale_store) [] in
  let r := find_and_cache_repositories Sample.tree Sample.disk_full Sample.w
             Sample.cache_file σ in
  r.1 = Locator.scan Sample.tree Sample.w
  ∧ (∀ p, p ∈ r.1 ↔
          (∃ c rest, p = Sample.w ++ c :: rest
                     ∧ Fs.is_dir Sample.tree (Fs.child Sample.w c) = true
                     ∧ Fs.is_dir Sample.tree (Fs.child p dot_git) = true))
  ∧ (∃ evs, log r.2 = log σ ++ evs ∧ writes evs = [WriteCache r.1 Sample.disk_full])
  ∧ (Sample.disk_full = WriteOk → cache r.2 = Cache r.1)
  ∧ (∀ e, Sample.disk_full = OpenFails e → cache r.2 = cache σ)
  ∧ (∀ e later, Sample.disk_full = DumpFails e later → cache r.2 = BadCache later).
Proof.
  apply (X7_rebuild_returns_scan_despite_write_failure Sample.tree Sample.disk_full
           Sample.w Sample.cache_file (St (Cache Sample.stale_store) [])).
  reflexivity.
Defined.

(** X8. A load that follows a rebuild whose write succeeded, on the same
    filesystem, returns the list the rebuild returned, leaves the cache file
    as it is and does not write it. *)
Theorem X8_load_after_rebuild fs w script_dir cache_file σ :
  let r1 := find_and_cache_repositories fs WriteOk script_dir cache_file σ in
  let r2 := load_repositories_from_cache fs w cache_file r1.2 in
  r2.1 = r1.1
  ∧ cache r2.2 = cache r1.2
  ∧ writes (log r2.2) = writes (log r1.2).
Proof.
  intros r1 r2. subst r1 r2.
  destruct (find_and_cache_run fs WriteOk script_dir cache_file σ) as [evs1 [-> _]].
  cbn [fst snd cache_after].
  set (found := Locator.scan fs script_dir).
  assert (Hall : filter (λ p, is_repo fs p = true) found = found).
  { apply filter_all, Forall_forall. intros p Hp. by eapply scan_is_repo. }
  destruct (load_cached fs w cache_file (St (Cache found) (log σ ++ evs1)) found eq_refl)
    as [evs2 [-> Hw2]].
  cbn [fst snd cache log]. rewrite Hall in *.
  rewrite decide_True in Hw2 by done. rewrite decide_True by done.
  by rewrite writes_app, Hw2, app_nil_r.
Qed.

(** X9. For every path a scan returns, the update on the same filesystem
    does not answer [NotARepo]: it starts with the pull in that path. *)
Theorem X9_scanned_paths_are_pulled fs script_dir platform run timeout p :
  p ∈ Locator.scan fs script_dir →
  ∃ s detail calls,
    run_git_commands fs platform run p timeout
    = (inr (p, s, detail), pull_call platform p timeout :: calls)
    ∧ s ≠ NotARepo.
Proof.
  intros Hp. apply scan_is_repo, is_repo_iff in Hp as Hgit.
  destruct (run (pull_call platform p timeout)) as [rc1 o1 e1| |e] eqn:H1.
  - destruct (run (submodule_call platform p timeout)) as [rc2 o2 e2| |e] eqn:H2.
    + destruct (decide (rc1 = 0 ∧ rc2 = 0)) as [[-> ->]|Hrc].
      * rewrite (run_git_commands_zero _ _ _ _ _ _ _ _ _ Hgit H1 H2).
        destruct (_ && _); by eexists _, _, _.
      * rewrite (run_git_commands_failed _ _ _ _ _ _ _ _ _ _ _ Hgit H1 H2) by lia.
        by eexists _, _, _.
    + rewrite (run_git_commands_submodule_times_out _ _ _ _ _ _ _ _ Hgit H1 H2).
      by eexists _, _, _.
    + rewrite (run_git_commands_submodule_raises _ _ _ _ _ _ _ _ _ Hgit H1 H2).
      by eexists _, _, _.
  - rewrite (run_git_commands_pull_times_out _ _ _ _ _ Hgit H1). by eexists _, _, _.
  - rewrite (run_git_commands_pull_raises _ _ _ _ _ _ Hgit H1). by eexists _, _, _.
Qed.

Lemma X9_scanned_paths_are_pulled_witness :
  Sample.repo_b ∈ Locator.scan Sample.tree Sample.w
  ∧ ∃ s detail calls,
      run_git_commands Sample.tree (lit "linux") Sample.pull_hangs Sample.repo_b 60
      = (inr (Sample.repo_b, s, detail), pull_call (lit "linux") Sample.repo_b 60 :: calls)
      ∧ s ≠ NotARepo.
Proof.
  assert (Hin : Sample.repo_b ∈ Locator.scan Sample.tree Sample.w).
  { apply (bool_decide_unpack _). vm_compute. exact I. }
  split; [exact Hin|].
  exact (X9_scanned_paths_are_pulled Sample.tree Sample.w (lit "linux")
           Sample.pull_hangs 60 Sample.repo_b Hin).
Defined.

(** X10. The scan does not stop at a repository: a repository nested at
    any depth in the working tree of one that was found is found too. *)
Theorem X10_nested_repositories_are_found fs script_dir p q :
  p ∈ Locator.scan fs script_dir →
  Fs.is_dir fs (Fs.child (p ++ q) dot_git) = true →
  p ++ q ∈ Locator.scan fs script_dir.
Proof.
  intros Hp Hq. apply elem_of_scan in Hp as (c & rest & -> & Hc & _).
  apply elem_of_scan. exists c, (rest ++ q). split; [|done].
  by rewrite <-app_assoc.
Qed.

Lemma X10_nested_repositories_are_found_witness :
  Sample.repo_b ∈ Locator.scan Sample.tree Sample.w
  ∧ Fs.is_dir Sample.tree (Fs.child (Sample.repo_b ++ [lit "deep"; lit "x"]) dot_git) = true
  ∧ Sample.repo_b ++ [lit "deep"; lit "x"] ∈ Locator.scan Sample.tree Sample.w.
Proof.
  assert (Hin : Sample.repo_b ∈ Locator.scan Sample.tree Sample.w).
  { apply (bool_decide_unpack _). vm_compute. exact I. }
  split; [exact Hin|]. split; [reflexivity|].
  exact (X10_nested_repositories_are_found Sample.tree Sample.w Sample.repo_b
           [lit "deep"; lit "x"] Hin eq_refl).
Defined.

(** A load of a cache file whose read raises one of the exceptions caught
    at line 99. *)
Lemma load_bad_cache fs w cache_file σ e :
  cache σ = BadCache e →
  load_repositories_from_cache fs w cache_file σ
  = ([],
     St (BadCache e)
        (log σ ++ [
           Print (lit "Loading repository list from cache: " ++ Fs.name cache_file);
           Print (lit "Error: Could not read cache file (" ++ e
                  ++ lit "). Run with --refresh to rebuild it.")])).
Proof.
  intros Hc. unfold load_repositories_from_cache.
  unfold mbind, IO_bind, mret, IO_ret, print, emit, read_cache. simpl.
  rewrite Hc. simpl. by rewrite <-app_assoc.
Qed.

(** X11. When reading the cache file raises one of the two exceptions the
    load catches at line 99, [json.JSONDecodeError] or [IOError], the load
    gives the empty list: it prints what it is loading and the error with the
    advice to run with [--refresh], and touches nothing; in particular it
    neither scans nor writes the file. (Any other exception of the read is
    not caught there and is outside this statement.) *)
Theorem X11_unreadable_cache_loads_nothing fs w cache_file σ e :
  cache σ = BadCache e →
  load_repositories_from_cache fs w cache_file σ
  = ([],
     St (BadCache e)
        (log σ ++ [
           Print (lit "Loading repository list from cache: " ++ Fs.name cache_file);
           Print (lit "Error: Could not read cache file (" ++ e
                  ++ lit "). Run with --refresh to rebuild it.")])).
Proof. apply load_bad_cache. Qed.

Lemma X11_unreadable_cache_loads_nothing_witness :
  load_repositories_from_cache Sample.tree WriteOk Sample.cache_file
    (St (BadCache (lit "Expecting value: line 1 column 1 (char 0)")) [])
  = ([],
     St (BadCache (lit "Expecting value: line 1 column 1 (char 0)"))
        ([] ++ [
           Print (lit "Loading repository list from cache: " ++ Fs.name Sample.cache_file);
           Print (lit "Error: Could not read cache file ("
                  ++ lit "Expecting value: line 1 column 1 (char 0)"
                  ++ lit "). Run with --refresh to rebuild it.")])).
Proof.
  apply (X11_unreadable_cache_loads_nothing Sample.tree WriteOk Sample.cache_file
           (St (BadCache (lit "Expecting value: line 1 column 1 (char 0)")) [])).
  reflexivity.
Defined.

(** The loop warns about every stored path that fails the test. *)
Lemma check_cached_warns fs l : ∀ acc σ,
  ∃ evs,
    check_cached fs l acc σ
    = (acc ++ filter (λ p, is_repo fs p = true) l, St (cache σ) (log σ ++ evs))
    ∧ ∀ p, p ∈ l → is_repo fs p = false →
           Print (lit "Warning: Cached path is no longer a valid git repo, removing: "
                  ++ Fs.render p) ∈ evs.
Proof.
  induction l as [|p l IH]; intros acc σ; simpl.
  - exists []. rewrite !app_nil_r. split; [by destruct σ|].
    intros p Hp. by apply elem_of_nil in Hp.
  - rewrite filter_cons. destruct (is_repo fs p) eqn:Hp; simpl.
    + destruct (IH (acc ++ [p]) σ) as [evs [-> Hw]].
      exists evs. rewrite <-app_assoc. split; [done|].
      intros q Hq Hnot. apply elem_of_cons in Hq as [->|Hq]; [congruence|].
      by apply Hw.
    + unfold mbind, IO_bind, print, emit. simpl.
      match goal with |- context [check_cached fs l acc ?s] =>
        destruct (IH acc s) as [evs [-> Hw]] end.
      simpl. eexists (_ :: evs). rewrite <-app_assoc. split; [done|].
      intros q Hq Hnot. apply elem_of_cons in Hq as [->|Hq].
      * apply elem_of_cons. by left.
      * apply elem_of_cons. right. by apply Hw.
Qed.

(** X12. A load reports every stored path it drops: for each stored path
    that fails the test, the line
    [Warning: Cached path is no longer a valid git repo, removing: ] followed
    by the path is printed. *)
Theorem X12_dropped_entries_are_reported fs w cache_file σ stored p :
  cache σ = Cache stored →
  p ∈ stored →
  is_repo fs p = false →
  ∃ evs,
    log (load_repositories_from_cache fs w cache_file σ).2 = log σ ++ evs
    ∧ Print (lit "Warning: Cached path is no longer a valid git repo, removing: "
             ++ Fs.render p) ∈ evs.
Proof.
  intros Hc Hp Hnot. unfold load_repositories_from_cache.
  unfold mbind, IO_bind, mret, IO_ret, print, emit, read_cache. simpl.
  rewrite Hc.
  match goal with |- context [check_cached fs stored [] ?s] =>
    destruct (check_cached_warns fs stored [] s) as [evs [-> Hw]] end.
  simpl. specialize (Hw p Hp Hnot).
  case_decide; unfold write_cache; simpl.
  - destruct w; simpl;
      (eexists (_ :: evs ++ [_; _; _; _]); rewrite <-!app_assoc; split; [done|];
       apply elem_of_cons; right; apply elem_of_app; by left).
  - eexists (_ :: evs ++ [_]). rewrite <-!app_assoc. split; [done|].
    apply elem_of_cons. right. apply elem_of_app. by left.
Qed.

Lemma X12_dropped_entries_are_reported_witness :
  ∃ evs,
    log (load_repositories_from_cache Sample.tree WriteOk Sample.cache_file
           (St (Cache Sample.stale_store) [])).2 = [] ++ evs
    ∧ Print (lit "Warning: Cached path is no longer a valid git repo, removing: "
             ++ Fs.render Sample.gone) ∈ evs.
Proof.
  apply (X12_dropped_entries_are_reported Sample.tree WriteOk Sample.cache_file
           (St (Cache Sample.stale_store) []) Sample.stale_store Sample.gone);
    [reflexivity | | reflexivity].
  apply (bool_decide_unpack _). vm_compute. exact I.
Defined.

(** ** [main]: how it ends and what it runs *)

Lemma writes_spawns (calls : list call) : writes (Spawn <$> calls) = [].
Proof. induction calls as [|c calls IH]; [done|]. unfold writes in *. by rewrite fmap_cons, filter_cons. Qed.

Lemma writes_prints (evs : list event) : Forall is_print evs → writes evs = [].
Proof.
  induction 1 as [|e evs [s ->] _ IH]; [done|].
  unfold writes in *. by rewrite filter_cons.
Qed.

Lemma spawn_not_print c (evs : list event) : Forall is_print evs → Spawn c ∉ evs.
Proof.
  intros Hall Hin. eapply Forall_forall in Hall as [s Hs]; [|exact Hin]. done.
Qed.

(** The loop only appends to the log and leaves the cache file alone. *)
Lemma report_loop_appends script_dir total futures : ∀ completed σ,
  ∃ evs,
    (report_loop script_dir total completed futures σ).2
    = St (cache σ) (log σ ++ evs).
Proof.
  induction futures as [|[r calls] futures IH]; intros completed σ.
  - exists []. simpl. rewrite app_nil_r. by destruct σ.
  - simpl. unfold mbind, IO_bind, mret, IO_ret, emit_calls, print_separator, print, emit.
    simpl. destruct r as [e|[[repo s] output]]; simpl.
    + by eexists.
    + case_decide.
      * match goal with |- context [report_loop _ _ ?c futures ?s] =>
          destruct (IH c s) as [evs ->] end.
        simpl. eexists. by rewrite <-app_assoc.
      * destruct output as [|c0 output]; simpl;
          match goal with |- context [report_loop _ _ ?c futures ?s] =>
            destruct (IH c s) as [evs ->] end;
          simpl; eexists; by rewrite <-!app_assoc.
Qed.

(** The loop over futures that all hold a result: what it adds to the log. *)
Lemma report_loop_log script_dir total futures : ∀ completed σ,
  Forall (λ f : Try update_result, ∃ r, f.1 = inr r) futures →
  ∃ evs,
    report_loop script_dir total completed futures σ
    = (None, St (cache σ) (log σ ++ evs))
    ∧ writes evs = []
    ∧ (∀ c, Spawn c ∈ evs → ∃ f, f ∈ futures ∧ c ∈ f.2)
    ∧ (Forall (λ f, status_of f = Some UpToDate) futures →
       evs = Spawn <$> concat (snd <$> futures)).
Proof.
  induction futures as [|[r calls] futures IH]; intros completed σ Hall.
  - exists []. simpl. unfold mret, IO_ret. rewrite app_nil_r.
    split; [by destruct σ|]. split; [done|]. split; [|done].
    intros c Hc. by apply elem_of_nil in Hc.
  - apply Forall_cons in Hall as [[res Hres] Hall]. simpl in Hres. subst r.
    destruct res as [[repo s] output].
    assert (Hstep : ∀ σ' pre,
              cache σ' = cache σ →
              log σ' = log σ ++ (Spawn <$> calls) ++ pre →
              Forall is_print pre →
              (s = UpToDate → pre = []) →
              ∃ evs,
                report_loop script_dir total (completed + 1) futures σ'
                = (None, St (cache σ) (log σ ++ evs))
                ∧ writes evs = []
                ∧ (∀ c, Spawn c ∈ evs →
                        ∃ f, f ∈ (inr (repo, s, output), calls) :: futures ∧ c ∈ f.2)
                ∧ (Forall (λ f, status_of f = Some UpToDate)
                          ((inr (repo, s, output), calls) :: futures) →
                   evs = Spawn <$> concat (snd <$> (inr (repo, s, output), calls) :: futures))).
    { intros σ' pre Hc Hl Hpre Hsilent.
      destruct (IH (completed + 1) σ' Hall) as (evs & -> & Hw & Hsp & Hup).
      exists ((Spawn <$> calls) ++ pre ++ evs).
      rewrite Hc, Hl, <-!app_assoc. split; [done|]. split; [|split].
      - by rewrite !writes_app, writes_spawns, (writes_prints pre), Hw.
      - intros c Hin. apply elem_of_app in Hin as [Hin|Hin].
        + apply list_elem_of_fmap in Hin as [c' [[= <-] Hin]].
          eexists. split; [apply elem_of_cons; by left | done].
        + apply elem_of_app in Hin as [Hin|Hin]; [by apply spawn_not_print in Hin|].
          destruct (Hsp c Hin) as [f [Hf Hcf]].
          exists f. split; [apply elem_of_cons; by right | done].
      - intros Hall'. apply Forall_cons in Hall' as [Hs Hall'].
        injection Hs as ->. rewrite (Hsilent eq_refl), (Hup Hall'). simpl.
        by rewrite fmap_app. }
    simpl. unfold mbind, IO_bind, mret, IO_ret, emit_calls, print_separator, print, emit.
    simpl. case_decide as Hs.
    + apply (Hstep _ []); [done | by rewrite app_nil_r | constructor | done].
    + destruct output as [|c0 output]; simpl.
      * eapply (Hstep _ [_; _; _]); [done | | | done].
        -- simpl. by rewrite <-!app_assoc.
        -- repeat constructor; by eexists.
      * eapply (Hstep _ [_; _; _; _; _]); [done | | | done].
        -- simpl. by rewrite <-!app_assoc.
        -- repeat constructor; by eexists.
Qed.

(** Part 3 of [main], on any list: how it ends and what it adds to the log. *)
Lemma run_updates_log E args repos σ :
  ∃ evs,
    run_updates E args repos σ = (Returned, St (cache σ) (log σ ++ evs))
    ∧ writes evs = []
    ∧ (∀ c, Spawn c ∈ evs →
            ∃ i repo, repos !! i = Some repo
                      ∧ c ∈ (run_git_commands (fs E) (platform E) (run_task E i) repo 60).2)
    ∧ (repos = [] → evs = [Print (lit "No repositories to update.")])
    ∧ (repos ≠ [] →
       ∃ mid, evs = [Print (start_line (len repos) (Cli.max_workers args));
                     Print (replicate 60 45%N)]
                    ++ mid ++ [Print (lit "All tasks completed.")]
              ∧ ((∀ i repo, repos !! i = Some repo →
                    status_of (run_git_commands (fs E) (platform E) (run_task E i) repo 60)
                    = Some UpToDate) →
                 Forall (λ e, ∃ c, e = Spawn c) mid)).
Proof.
  unfold run_updates. destruct repos as [|repo0 repos'] eqn:Hrepos.
  - rewrite decide_True by done.
    unfold mbind, IO_bind, mret, IO_ret, print, emit. simpl.
    eexists. split; [done|]. split; [done|]. split; [|split; [done|done]].
    intros c Hc. apply elem_of_cons in Hc as [?|Hc]; [done | by apply elem_of_nil in Hc].
  - rewrite <-Hrepos. assert (Hne : repos ≠ []) by (by rewrite Hrepos).
    clear Hrepos repo0 repos'.
    rewrite decide_False by (unfold len; destruct repos; [done | simpl; lia]).
    unfold mbind, IO_bind, mret, IO_ret, print_separator, print, emit. simpl.
    match goal with |- context [report_loop ?d ?t ?c ?fs ?s] =>
      destruct (report_loop_log d t fs c s) as (evs & -> & Hw & Hsp & Hup) end.
    { rewrite as_completed_perm. apply submit_all_returned. }
    simpl. eexists (_ :: _ :: evs ++ [_]). rewrite <-!app_assoc.
    split; [done|]. split; [|split; [|split; [done|]]].
    + unfold writes in *. by rewrite !filter_cons, filter_app, Hw.
    + intros c Hc. apply elem_of_cons in Hc as [?|Hc]; [done|].
      apply elem_of_cons in Hc as [?|Hc]; [done|].
      apply elem_of_app in Hc as [Hc|Hc].
      2: { apply elem_of_cons in Hc as [?|Hc]; [done | by apply elem_of_nil in Hc]. }
      destruct (Hsp c Hc) as [f [Hf Hcf]].
      rewrite as_completed_perm in Hf.
      apply list_elem_of_lookup in Hf as [i Hi].
      unfold submit_all in Hi. rewrite list_lookup_imap in Hi.
      destruct (repos !! i) as [repo|] eqn:Hr; [|done]. injection Hi as <-.
      by exists i, repo.
    + intros _. exists evs. split; [done|]. intros Hall.
      rewrite Hup.
      * apply Forall_forall. intros e He.
        apply list_elem_of_fmap in He as [c [-> _]]. by exists c.
      * apply Forall_forall. intros f Hf. rewrite as_completed_perm in Hf.
        apply list_elem_of_lookup in Hf as [i Hi].
        unfold submit_all in Hi. rewrite list_lookup_imap in Hi.
        destruct (repos !! i) as [repo|] eqn:Hr; [|done]. injection Hi as <-.
        by apply Hall.
Qed.

(** What the checker of [-w] lets through. *)
Lemma parse_args_workers d cl args :
  Cli.parse_args d cl = inr args →
  (Cli.opt_max_workers cl = None ∧ Cli.max_workers args = d)
  ∨ (∃ s, Cli.opt_max_workers cl = Some s ∧ Cli.py_int s = Some (Cli.max_workers args)
          ∧ 1 ≤ Cli.max_workers args ≤ 64).
Proof.
  unfold Cli.parse_args, Cli.positive_int_range.
  destruct (Cli.opt_max_workers cl) as [s|]; [|intros [= <-]; by left].
  destruct (Cli.py_int s) as [v|] eqn:Hint; [|done].
  destruct ((1 <=? v) && (v <=? 64)) eqn:Hb; simpl; [|done].
  intros [= <-]. right. exists s. simpl.
  apply andb_true_iff in Hb as [H1 H2]. apply Z.leb_le in H1, H2.
  repeat split; first [done | lia].
Qed.

Lemma default_workers_pos c : 1 ≤ default_workers c.
Proof. unfold default_workers. lia. Qed.

(** How [main] ends, by the command line and the number of cores alone. *)
Lemma main_termination E cl σ :
  (main E cl σ).1
  = match Cli.parse_args (default_workers (cpu_count E)) cl with
    | inl msg => ArgparseError msg
    | inr args =>
        match cpu_count E with
        | None =>
            Uncaught (lit "'>' not supported between instances of 'int' and 'NoneType'")
        | Some cpus =>
            if decide (Cli.max_workers args > cpus) then SysExit 1 else Returned
        end
    end.
Proof.
  unfold main. fold (default_workers (cpu_count E)).
  destruct (Cli.parse_args (default_workers (cpu_count E)) cl) as [msg|args] eqn:Hp;
    [done|].
  assert (1 ≤ Cli.max_workers args).
  { apply parse_args_workers in Hp as [[_ ->]|(s & _ & _ & ?)];
      [apply default_workers_pos | lia]. }
  rewrite decide_False by lia.
  destruct (cpu_count E) as [cpus|]; [|done].
  case_decide; [done|].
  unfold mbind at 1, IO_bind at 1.
  destruct (prepare_repositories E args σ) as [repos σ1].
  by destruct (run_updates_log E args repos σ1) as (evs & -> & _).
Qed.



(** X14. [main] calls [sys.exit] for one reason only: a worker count above
    the number of cores. The status is then 1 and the two lines of the
    over-capacity warning are all that was printed; the test
    [args.max_workers < 1] never fires, the checker of the option and the
    default leaving no such value. *)
Theorem X14_only_over_capacity_exits E cl σ code :
  (main E cl σ).1 = SysExit code →
  code = 1
  ∧ ∃ args cpus,
      Cli.parse_args (default_workers (cpu_count E)) cl = inr args
      ∧ cpu_count E = Some cpus
      ∧ cpus < Cli.max_workers args
      ∧ (main E cl σ).2
        = St (cache σ)
             (log σ ++ [
                Print (over_capacity_warning (Cli.max_workers args) cpus);
                Print (lit "Consider reducing the number of workers for better performance.")]).
Proof.
  rewrite main_termination.
  destruct (Cli.parse_args (default_workers (cpu_count E)) cl) as [msg|args] eqn:Hp;
    [done|].
  destruct (cpu_count E) as [cpus|] eqn:Hcpu; [|done].
  case_decide as Hover; [|done]. intros [= <-]. split; [done|].
  exists args, cpus. split; [done|]. split; [done|]. split; [lia|].
  assert (1 ≤ Cli.max_workers args).
  { apply parse_args_workers in Hp as [[_ ->]|(s & _ & _ & ?)];
      [apply default_workers_pos | lia]. }
  unfold main. fold (default_workers (cpu_count E)). rewrite Hcpu, Hp.
  rewrite decide_False by lia. rewrite decide_True by lia.
  unfold mbind, IO_bind, mret, IO_ret, print, emit. simpl. by rewrite <-app_assoc.
Qed.

Lemma X14_only_over_capacity_exits_witness :
  let E := Sample.eight_cores in
  let cl := Cli.CommandLine (Some (lit "12")) false in
  (main E cl (St NoCache [])).1 = SysExit 1
  ∧ 1 = 1
  ∧ ∃ args cpus,
      Cli.parse_args (default_workers (cpu_count E)) cl = inr args
      ∧ cpu_count E = Some cpus
      ∧ cpus < Cli.max_workers args
      ∧ (main E cl (St NoCache [])).2
        = St NoCache
             ([] ++ [
                Print (over_capacity_warning (Cli.max_workers args) cpus);
                Print (lit "Consider reducing the number of workers for better performance.")]).
Proof.
  split; [reflexivity|].
  apply (X14_only_over_capacity_exits Sample.eight_cores
           (Cli.CommandLine (Some (lit "12")) false) (St NoCache []) 1).
  reflexivity.
Defined.

(** X15. When the number of cores cannot be determined, the default of
    [-w] falls back to one worker, but the comparison of the worker count
    with the number of cores raises: every accepted command line ends with an
    uncaught [TypeError], before anything is printed, read or run. *)
Theorem X15_unknown_cpu_count_is_fatal E cl σ args :
  cpu_count E = None →
  Cli.parse_args (default_workers (cpu_count E)) cl = inr args →
  default_workers (cpu_count E) = 1
  ∧ main E cl σ
    = (Uncaught (lit "'>' not supported between instances of 'int' and 'NoneType'"), σ)
  ∧ exit_code (main E cl σ).1 = 1.
Proof.
  intros Hcpu Hp.
  assert (1 ≤ Cli.max_workers args).
  { apply parse_args_workers in Hp as [[_ ->]|(s & _ & _ & ?)];
      [apply default_workers_pos | lia]. }
  assert (Hm : main E cl σ
    = (Uncaught (lit "'>' not supported between instances of 'int' and 'NoneType'"), σ)).
  { unfold main. fold (default_workers (cpu_count E)). rewrite Hp.
    rewrite decide_False by lia. by rewrite Hcpu. }
  rewrite Hm, Hcpu. done.
Qed.

Lemma X15_unknown_cpu_count_is_fatal_witness :
  let E := Sample.unknown_cores in
  let cl := Cli.CommandLine None false in
  let σ := St (Cache Sample.stale_store) [] in
  default_workers (cpu_count E) = 1
  ∧ main E cl σ
    = (Uncaught (lit "'>' not supported between instances of 'int' and 'NoneType'"), σ)
  ∧ exit_code (main E cl σ).1 = 1.
Proof.
  apply (X15_unknown_cpu_count_is_fatal Sample.unknown_cores
           (Cli.CommandLine None false) (St (Cache Sample.stale_store) [])
           (Cli.Args 1 false)); reflexivity.
Defined.

(** X16. Without [-w] the worker count is half the number of cores, at
    least one; it never exceeds the number of cores, so neither check of
    [main] stops the run: [main] goes on to make the repository list and to
    run the updates with that count. The default is not passed through the
    checker of the option: on a machine with more than 129 cores it lies
    above 64. *)
Theorem X16_default_workers_are_accepted E cl σ cpus :
  Cli.opt_max_workers cl = None →
  cpu_count E = Some cpus →
  1 ≤ cpus →
  let args := Cli.Args (Z.max 1 (cpus / 2)) (Cli.opt_refresh cl) in
  Cli.parse_args (default_workers (cpu_count E)) cl = inr args
  ∧ Z.max 1 (cpus / 2) ≤ cpus
  ∧ (64 < Z.max 1 (cpus / 2) ↔ 130 ≤ cpus)
  ∧ main E cl σ
    = (repos ← prepare_repositories E args; run_updates E args repos) σ.
Proof.
  intros Hopt Hcpu Hpos args. subst args.
  assert (Hd : default_workers (cpu_count E) = Z.max 1 (cpus / 2)).
  { unfold default_workers, or_1. rewrite Hcpu. by rewrite decide_False by lia. }
  assert (Hle : Z.max 1 (cpus / 2) ≤ cpus).
  { pose proof (Z.div_le_upper_bound cpus 2 cpus). lia. }
  assert (Hp : Cli.parse_args (default_workers (cpu_count E)) cl
               = inr (Cli.Args (Z.max 1 (cpus / 2)) (Cli.opt_refresh cl))).
  { unfold Cli.parse_args. by rewrite Hopt, Hd. }
  split; [done|]. split; [done|]. split.
  - pose proof (Z.div_le_lower_bound cpus 2 65).
    pose proof (Z.div_lt_upper_bound cpus 2 65). lia.
  - unfold main. fold (default_workers (cpu_count E)). rewrite Hp, Hcpu.
    cbn [Cli.max_workers].
    rewrite decide_False by lia. by rewrite decide_False by lia.
Qed.

Lemma X16_default_workers_are_accepted_witness :
  let E := Sample.many_cores in
  let cl := Cli.CommandLine None false in
  let σ := St NoCache [] in
  let args := Cli.Args (Z.max 1 (256 / 2)) (Cli.opt_refresh cl) in
  Cli.parse_args (default_workers (cpu_count E)) cl = inr args
  ∧ Z.max 1 (256 / 2) ≤ 256
  ∧ (64 < Z.max 1 (256 / 2) ↔ 130 ≤ 256)
  ∧ main E cl σ
    = (repos ← prepare_repositories E args; run_updates E args repos) σ.
Proof.
  apply (X16_default_workers_are_accepted Sample.many_cores
           (Cli.CommandLine None false) (St NoCache []) 256);
    [reflexivity | reflexivity | lia].
Defined.

(** X17. With a cache file whose read raises one of the two exceptions
    the load catches at line 99, [json.JSONDecodeError] or [IOError], and
    without [--refresh], [main] does not fall back to a scan: it prints the
    error of the load and [No repositories to update.], runs no command,
    leaves the file as it is and returns. (Any other exception of the read is
    not caught and is outside this statement.) *)
Theorem X17_unreadable_cache_ends_the_run E cl σ args cpus e :
  Cli.parse_args (default_workers (cpu_count E)) cl = inr args →
  Cli.refresh args = false →
  cpu_count E = Some cpus →
  Cli.max_workers args ≤ cpus →
  cache σ = BadCache e →
  main E cl σ
  = (Returned,
     St (BadCache e)
        (log σ ++ [
           Print (lit "Loading repository list from cache: " ++ cache_file_name);
           Print (lit "Error: Could not read cache file (" ++ e
                  ++ lit "). Run with --refresh to rebuild it.");
           Print (lit "No repositories to update.")])).
Proof.
  intros Hp Hr Hcpu Hle Hc.
  assert (1 ≤ Cli.max_workers args).
  { apply parse_args_workers in Hp as [[_ ->]|(s & _ & _ & ?)];
      [apply default_workers_pos | lia]. }
  unfold main. fold (default_workers (cpu_count E)). rewrite Hp.
  rewrite decide_False by lia. rewrite Hcpu. rewrite decide_False by lia.
  unfold mbind at 1, IO_bind at 1.
  unfold prepare_repositories, cache_is_file.
  unfold mbind at 1, IO_bind at 1. rewrite Hc, Hr. cbn [negb orb].
  rewrite (load_bad_cache _ _ _ _ e Hc).
  unfold run_updates. rewrite decide_True by done.
  unfold mbind, IO_bind, mret, IO_ret, print, emit. cbn [cache log].
  unfold Fs.name, Fs.child. rewrite last_snoc. cbn [default].
  by rewrite <-app_assoc.
Qed.

Lemma X17_unreadable_cache_ends_the_run_witness :
  let e := lit "Expecting value: line 1 column 1 (char 0)" in
  main Sample.eight_cores (Cli.CommandLine (Some (lit "4")) false) (St (BadCache e) [])
  = (Returned,
     St (BadCache e)
        ([] ++ [
           Print (lit "Loading repository list from cache: " ++ cache_file_name);
           Print (lit "Error: Could not read cache file (" ++ e
                  ++ lit "). Run with --refresh to rebuild it.");
           Print (lit "No repositories to update.")])).
Proof.
  apply (X17_unreadable_cache_ends_the_run Sample.eight_cores
           (Cli.CommandLine (Some (lit "4")) false)
           (St (BadCache (lit "Expecting value: line 1 column 1 (char 0)")) [])
           (Cli.Args 4 false) 8);
    [reflexivity | reflexivity | reflexivity | simpl; lia | reflexivity].
Defined.

(** Part 2 of [main] when it scans. *)
Lemma prepare_by_scan E args σ :
  Cli.refresh args = true ∨ cache σ = NoCache →
  ∃ evs,
    prepare_repositories E args σ
    = (Locator.scan (fs E) (script_dir E),
       St (cache_after (write E) (Locator.scan (fs E) (script_dir E)) (cache σ))
          (log σ ++ evs))
    ∧ writes evs = [WriteCache (Locator.scan (fs E) (script_dir E)) (write E)].
Proof.
  intros Hcase. unfold prepare_repositories, cache_is_file.
  unfold mbind at 1, IO_bind at 1.
  assert (Hb : Cli.refresh args
               || negb (match cache σ with NoCache => false | _ => true end) = true).
  { destruct Hcase as [-> | ->]; [done | by rewrite orb_true_r]. }
  rewrite Hb. unfold mbind at 1, IO_bind at 1.
  match goal with |- context [find_and_cache_repositories ?f ?w ?d ?c] =>
    set (cf := c) end.
  destruct (negb _); unfold print, emit;
    match goal with |- context [find_and_cache_repositories _ _ _ cf ?s] =>
      destruct (find_and_cache_run (fs E) (write E) (script_dir E) cf s)
        as [evs [-> Hw]] end;
    cbn [fst snd cache log];
    (eexists (_ :: evs); rewrite <-app_assoc; split; [done|]);
    unfold writes in *; by rewrite filter_cons.
Qed.

(** X18. On a first run, the cache file being absent, and on every run
    with [--refresh], the repository list is the one of a fresh scan; the
    cache file is written once, with that list, and whatever it held before
    is not consulted. *)
Theorem X18_refresh_and_first_run_scan E args σ :
  Cli.refresh args = true ∨ cache σ = NoCache →
  let r := prepare_repositories E args σ in
  r.1 = Locator.scan (fs E) (script_dir E)
  ∧ cache r.2 = cache_after (write E) r.1 (cache σ)
  ∧ ∃ evs, log r.2 = log σ ++ evs ∧ writes evs = [WriteCache r.1 (write E)].
Proof.
  intros Hcase r. subst r.
  destruct (prepare_by_scan E args σ Hcase) as [evs [-> Hw]].
  cbn [fst snd cache log]. split; [done|]. split; [done|]. by exists evs.
Qed.

Lemma X18_refresh_and_first_run_scan_witness :
  let E := Sample.eight_cores in
  let r := prepare_repositories E (Cli.Args 4 true) (St (Cache Sample.stale_store) []) in
  r.1 = Locator.scan (fs E) (script_dir E)
  ∧ cache r.2 = cache_after (write E) r.1 (Cache Sample.stale_store)
  ∧ ∃ evs, log r.2 = [] ++ evs ∧ writes evs = [WriteCache r.1 (write E)].
Proof.
  apply (X18_refresh_and_first_run_scan Sample.eight_cores (Cli.Args 4 true)
           (St (Cache Sample.stale_store) [])).
  by left.
Defined.

Lemma relative_to_app (base q : path) : relative_to (base ++ q) base = Some q.
Proof.
  induction base as [|b base IH]; simpl; [by destruct q|].
  by rewrite decide_True.
Qed.

(** X19. A repository found by the scan lies below the directory of the
    script, so that [relative_to] succeeds on it and yields a path that is
    not empty: the report of such a repository shows it relative to the
    script, never as an absolute path and never as a dot. *)
Theorem X19_scanned_paths_are_shown_relative fs script_dir p :
  p ∈ Locator.scan fs script_dir →
  ∃ c rest,
    relative_to p script_dir = Some (c :: rest)
    ∧ p = script_dir ++ c :: rest
    ∧ Fs.render_rel (c :: rest) = Str.join (lit "/") (c :: rest).
Proof.
  intros Hp. apply elem_of_scan in Hp as (c & rest & -> & _).
  exists c, rest. by rewrite relative_to_app.
Qed.

Lemma X19_scanned_paths_are_shown_relative_witness :
  Sample.repo_b ∈ Locator.scan Sample.tree Sample.w
  ∧ ∃ c rest,
      relative_to Sample.repo_b Sample.w = Some (c :: rest)
      ∧ Sample.repo_b = Sample.w ++ c :: rest
      ∧ Fs.render_rel (c :: rest) = Str.join (lit "/") (c :: rest).
Proof.
  assert (Hin : Sample.repo_b ∈ Locator.scan Sample.tree Sample.w).
  { apply (bool_decide_unpack _). vm_compute. exact I. }
  split; [exact Hin|].
  exact (X19_scanned_paths_are_shown_relative Sample.tree Sample.w Sample.repo_b Hin).
Defined.

(** X20. When every repository turns out up to date, the update phase
    prints the line that announces it, the separator and
    [All tasks completed.], and nothing in between: no report, no status, no
    separator per repository. *)
Theorem X20_up_to_date_runs_are_silent E args repos σ :
  repos ≠ [] →
  (∀ i repo, repos !! i = Some repo →
     status_of (run_git_commands (fs E) (platform E) (run_task E i) repo 60)
     = Some UpToDate) →
  ∃ spawns,
    run_updates E args repos σ
    = (Returned,
       St (cache σ)
          (log σ ++ [Print (start_line (len repos) (Cli.max_workers args));
                     Print (replicate 60 45%N)]
           ++ spawns ++ [Print (lit "All tasks completed.")]))
    ∧ Forall (λ e, ∃ c, e = Spawn c) spawns.
Proof.
  intros Hne Hall.
  destruct (run_updates_log E args repos σ) as (evs & -> & _ & _ & _ & Hmid).
  destruct (Hmid Hne) as (mid & -> & Hsilent).
  exists mid. split; [done | by apply Hsilent].
Qed.

Lemma X20_up_to_date_runs_are_silent_witness :
  ∃ spawns,
    run_updates Sample.all_quiet (Cli.Args 2 false) [Sample.repo_a] (St NoCache [])
    = (Returned,
       St NoCache
          ([] ++ [Print (start_line (len [Sample.repo_a]) 2);
                  Print (replicate 60 45%N)]
           ++ spawns ++ [Print (lit "All tasks completed.")]))
    ∧ Forall (λ e, ∃ c, e = Spawn c) spawns.
Proof.
  apply (X20_up_to_date_runs_are_silent Sample.all_quiet
           (Cli.Args 2 false) [Sample.repo_a] (St NoCache [])); [done|].
  intros [|i] repo Hi; [|done]. injection Hi as <-. reflexivity.
Defined.

Lemma len_cons {A} (x : A) (l : list A) : len (x :: l) = len l + 1.
Proof. unfold len. cbn [length]. lia. Qed.

(** Taking the result of a future that holds one moves the loop on with the
    counter raised by one. *)
Lemma report_loop_next script_dir total completed r calls rest σ :
  ∃ σ', report_loop script_dir total completed ((inr r, calls) :: rest) σ
        = report_loop script_dir total (completed + 1) rest σ'.
Proof.
  destruct r as [[repo s] output]. simpl.
  unfold mbind, IO_bind, mret, IO_ret, emit_calls, print_separator, print, emit.
  simpl. case_decide; [by eexists|].
  destruct output; simpl; by eexists.
Qed.

(** X21. The counter shown in a report counts every result taken so far,
    the silent ones included: the report of a result that is not up to date
    and comes after [n] others shows [completed + n + 1] out of the total,
    whatever the statuses of those others. *)
Theorem X21_progress_counts_every_result script_dir total pre : ∀ completed σ
    repo s output calls rest,
  Forall (λ f : Try update_result, ∃ r, f.1 = inr r) pre →
  s ≠ UpToDate →
  Print (icon_for s ++ lit " "
         ++ (lit "[" ++ Str.of_int (completed + len pre + 1) ++ lit "/"
             ++ Str.of_int total ++ lit "]")
         ++ lit " Repository: "
         ++ match relative_to repo script_dir with
            | Some rel => Fs.render_rel rel
            | None => Fs.render repo
            end)
  ∈ log (report_loop script_dir total completed
           (pre ++ (inr (repo, s, output), calls) :: rest) σ).2.
Proof.
  induction pre as [|[r0 calls0] pre IH];
    intros completed σ repo s output calls rest Hall Hs.
  - simpl. unfold mbind, IO_bind, mret, IO_ret, emit_calls, print_separator, print, emit.
    simpl. rewrite decide_False by done.
    replace (completed + len [] + 1) with (completed + 1) by (unfold len; simpl; lia).
    destruct output as [|c0 output]; simpl;
      match goal with |- context [report_loop _ _ ?c rest ?s] =>
        destruct (report_loop_appends script_dir total rest c s) as [evs ->] end;
      cbn [log]; rewrite <-!app_assoc;
      apply elem_of_app; right; apply elem_of_app; right;
      apply elem_of_cons; by left.
  - apply Forall_cons in Hall as [[res Hres] Hall]. simpl in Hres. subst r0.
    rewrite <-app_comm_cons.
    destruct (report_loop_next script_dir total completed res calls0
                (pre ++ (inr (repo, s, output), calls) :: rest) σ) as [σ' Hnext].
    match goal with |- _ ∈ log (?t).2 =>
      replace t with (report_loop script_dir total (completed + 1)
                        (pre ++ (inr (repo, s, output), calls) :: rest) σ')
        by (symmetry; exact Hnext) end.
    assert (Hz : ∀ z, completed + (z + 1) + 1 = completed + 1 + z + 1)
      by (intros; lia).
    rewrite len_cons, Hz. by apply IH.
Qed.

Lemma X21_progress_counts_every_result_witness :
  let quiet_result : Try update_result := (inr (Sample.repo_a, UpToDate, []), []) in
  Print (icon_for Failed ++ lit " "
         ++ (lit "[" ++ Str.of_int (0 + len [quiet_result; quiet_result] + 1) ++ lit "/"
             ++ Str.of_int 3 ++ lit "]")
         ++ lit " Repository: "
         ++ match relative_to Sample.repo_b Sample.w with
            | Some rel => Fs.render_rel rel
            | None => Fs.render Sample.repo_b
            end)
  ∈ log (report_loop Sample.w 3 0
           ([quiet_result; quiet_result]
            ++ (inr (Sample.repo_b, Failed, lit "--- git pull ---"), []) :: [])
           (St NoCache [])).2.
Proof.
  apply (X21_progress_counts_every_result Sample.w 3
           [(inr (Sample.repo_a, UpToDate, []), []); (inr (Sample.repo_a, UpToDate, []), [])]
           0 (St NoCache []) Sample.repo_b Failed (lit "--- git pull ---") [] []);
    [|done].
  repeat constructor; by eexists.
Defined.

(** The calls of an update are the pull and the submodule step of its
    repository, and no other. *)
Lemma run_git_commands_calls fs platform run repo_path timeout c :
  c ∈ (run_git_commands fs platform run repo_path timeout).2 →
  c = pull_call platform repo_path timeout
  ∨ c = submodule_call platform repo_path timeout.
Proof.
  destruct (Fs.is_dir fs (Fs.child repo_path dot_git)) eqn:Hgit.
  2: { rewrite run_git_commands_not_repo by done. intros H. by apply elem_of_nil in H. }
  assert (Hsub : ∀ l : list call,
            l = [pull_call platform repo_path timeout]
            ∨ l = [pull_call platform repo_path timeout;
                   submodule_call platform repo_path timeout] →
            c ∈ l → c = pull_call platform repo_path timeout
                    ∨ c = submodule_call platform repo_path timeout).
  { intros l [-> | ->] Hc;
      repeat (apply elem_of_cons in Hc as [->|Hc]; [by auto|]);
      by apply elem_of_nil in Hc. }
  apply Hsub.
  destruct (run (pull_call platform repo_path timeout)) as [rc1 o1 e1| |e] eqn:H1.
  - right. destruct (run (submodule_call platform repo_path timeout))
      as [rc2 o2 e2| |e] eqn:H2.
    + destruct (decide (rc1 = 0 ∧ rc2 = 0)) as [[-> ->]|Hrc].
      * by rewrite (run_git_commands_zero _ _ _ _ _ _ _ _ _ Hgit H1 H2).
      * by rewrite (run_git_commands_failed _ _ _ _ _ _ _ _ _ _ _ Hgit H1 H2) by lia.
    + by rewrite (run_git_commands_submodule_times_out _ _ _ _ _ _ _ _ Hgit H1 H2).
    + by rewrite (run_git_commands_submodule_raises _ _ _ _ _ _ _ _ _ Hgit H1 H2).
  - left. by rewrite (run_git_commands_pull_times_out _ _ _ _ _ Hgit H1).
  - left. by rewrite (run_git_commands_pull_raises _ _ _ _ _ _ Hgit H1).
Qed.

(** X22. The update phase of [main] runs nothing but [git pull] and
    [git submodule update --init --recursive], each in a repository of the
    list, with a timeout of 60 seconds and the priority arguments of the
    platform; it does not write the cache file and leaves it as it found
    it. *)
Theorem X22_update_phase_runs_only_git E args repos σ :
  let r := run_updates E args repos σ in
  cache r.2 = cache σ
  ∧ ∃ evs,
      log r.2 = log σ ++ evs
      ∧ writes evs = []
      ∧ ∀ c, Spawn c ∈ evs →
             cwd c ∈ repos
             ∧ call_timeout c = 60
             ∧ kwargs c = priority_for (platform E)
             ∧ (argv c = git_pull ∨ argv c = git_submodule_update).
Proof.
  intros r. subst r.
  destruct (run_updates_log E args repos σ) as (evs & -> & Hw & Hsp & _).
  cbn [fst snd cache log]. split; [done|]. exists evs. split; [done|]. split; [done|].
  intros c Hc. destruct (Hsp c Hc) as (i & repo & Hi & Hin).
  assert (repo ∈ repos) by (apply list_elem_of_lookup; by exists i).
  apply run_git_commands_calls in Hin as [-> | ->]; simpl; auto.
Qed.

(** X23. With a readable cache file and without [--refresh] no scan takes
    place: the repository list holds exactly the stored paths that are still
    repositories, so a repository that is on disk but not in the cache file
    is left out until a run with [--refresh]. *)
Theorem X23_cached_run_does_not_discover E args σ stored :
  cache σ = Cache stored →
  Cli.refresh args = false →
  ∀ p, p ∈ (prepare_repositories E args σ).1
       ↔ p ∈ stored ∧ is_repo (fs E) p = true.
Proof.
  intros Hc Hr p. unfold prepare_repositories, cache_is_file.
  unfold mbind at 1, IO_bind at 1. rewrite Hc, Hr. cbn [negb orb].
  destruct (load_cached (fs E) (write E) (Fs.child (script_dir E) cache_file_name)
              σ stored Hc) as [evs [-> _]].
  cbn [fst]. rewrite list_elem_of_filter. tauto.
Qed.

Lemma X23_cached_run_does_not_discover_witness :
  let r := prepare_repositories Sample.eight_cores (Cli.Args 4 false)
             (St (Cache Sample.stale_store) []) in
  (∀ p, p ∈ r.1 ↔ p ∈ Sample.stale_store ∧ is_repo Sample.tree p = true)
  ∧ Sample.repo_b ∈ Locator.scan Sample.tree Sample.w
  ∧ Sample.repo_b ∉ r.1.
Proof.
  assert (H : ∀ p, p ∈ (prepare_repositories Sample.eight_cores (Cli.Args 4 false)
                          (St (Cache Sample.stale_store) [])).1
                   ↔ p ∈ Sample.stale_store ∧ is_repo Sample.tree p = true).
  { apply (X23_cached_run_does_not_discover Sample.eight_cores (Cli.Args 4 false)
             (St (Cache Sample.stale_store) []) Sample.stale_store); reflexivity. }
  split; [exact H|]. split.
  - apply (bool_decide_unpack _). vm_compute. exact I.
  - intros Hin. apply H in Hin as [Hin _]. revert Hin.
    apply (bool_decide_unpack _). vm_compute. exact I.
Defined.


(** ** The updates when the test of line 13 answers *)



